(** * Omniporton: tool-call extraction and orchestration

    A shallow embedding of the tool-call core of the omniporton library:

    - the payload decoder      ([parseToolCallPayload], toolCallParser.ts),
    - the dialect buffer       ([StreamingToolCallBuffer], streamingToolCallBuffer.ts),
    - the tool registry        ([MCPService], mcp/MCPService.ts),
    - the legacy orchestrator  ([handleToolCallFromModelOutput] and
                                [LegacyChatSession.chat], chat/),
    - the session orchestrator ([ChatSession], session/ChatSession.ts).

    A JavaScript string is modelled as a list of characters ([list ascii]);
    every regular expression of the source is written out as the index scan
    it performs (leftmost match, lazy or greedy body as in the pattern). *)

From Stdlib Require Import ZArith Ascii String List Lia Bool DecimalString.
From stdpp Require Import base tactics option list gmap strings.

Set Warnings "-register-all".
Open Scope list_scope.

(** ** Text *)

Module Text.

Abbreviation str := (list ascii).

(** A string literal of the source. *)
Definition lit (s : string) : str := list_ascii_of_string s.

Definition dquote : ascii := ascii_of_nat 34.
Definition backslash : ascii := ascii_of_nat 92.

(** A literal written with ['] where the text has a double quote. *)
Definition qlit (s : string) : str :=
  map (fun c => if Ascii.eqb c "'" then dquote else c) (lit s).

(** [s.startsWith(p)]: the literal [p] matches at the head of [s]. *)
Fixpoint starts_with (p s : str) : bool :=
  match p, s with
  | [], _ => true
  | _ :: _, [] => false
  | a :: p', b :: s' => if Ascii.eqb a b then starts_with p' s' else false
  end.

(** First occurrence of the literal [p] in [s]: the text before it and
    the text after it.  This is what a lazy body [[\s\S]*?] followed by
    the literal [p] matches. *)
Fixpoint split_at_first (p s : str) {struct s} : option (str * str) :=
  if starts_with p s then Some ([], drop (length p) s)
  else match s with
       | [] => None
       | c :: s' =>
           match split_at_first p s' with
           | Some (a, b) => Some (c :: a, b)
           | None => None
           end
       end.

(** Last occurrence of the literal [p] in [s]: what a greedy body
    [[\s\S]*] followed by [p] matches. *)
Fixpoint split_at_last (p s : str) {struct s} : option (str * str) :=
  match s with
  | [] => if starts_with p [] then Some ([], []) else None
  | c :: s' =>
      match split_at_last p s' with
      | Some (a, b) => Some (c :: a, b)
      | None => if starts_with p s then Some ([], drop (length p) s) else None
      end
  end.

(** [RegExp.prototype.exec] for [/<open>([\s\S]*?)<close>/] from the head
    of [s]: the leftmost position at which [op] matches and some [cl]
    follows; the body stops at the first such [cl].  The result is the
    text before the match, the captured body and the text after the
    match. *)
Fixpoint exec_block (op cl s : str) {struct s} : option (str * str * str) :=
  let here :=
    if starts_with op s then split_at_first cl (drop (length op) s) else None in
  match here with
  | Some (inner, rest) => Some ([], inner, rest)
  | None =>
      match s with
      | [] => None
      | c :: s' =>
          match exec_block op cl s' with
          | Some (pre, inner, rest) => Some (c :: pre, inner, rest)
          | None => None
          end
      end
  end.

(** The loop [while ((match = pat.exec(s)))] over a pattern with the [g]
    flag: every exec resumes at [lastIndex], the end of the previous
    match.  Returns the captured bodies, left to right.  A match is never
    empty, so [length s] rounds are enough. *)
Fixpoint exec_all_fuel (fuel : nat) (op cl s : str) : list str :=
  match fuel with
  | O => []
  | S fuel' =>
      match exec_block op cl s with
      | Some (_, inner, rest) => inner :: exec_all_fuel fuel' op cl rest
      | None => []
      end
  end.

Definition exec_all (op cl s : str) : list str :=
  exec_all_fuel (length s) op cl s.

(** [s.replace(/<open>[\s\S]*?<close>/g, '')]: every match of the global
    scan is cut out. *)
Fixpoint remove_blocks_fuel (fuel : nat) (op cl s : str) : str :=
  match fuel with
  | O => s
  | S fuel' =>
      match exec_block op cl s with
      | Some (pre, _, rest) => pre ++ remove_blocks_fuel fuel' op cl rest
      | None => s
      end
  end.

Definition remove_blocks (op cl s : str) : str :=
  remove_blocks_fuel (length s) op cl s.

(** Leftmost position at which one of the alternatives of
    [/a|b|c/] matches. *)
Fixpoint find_any (tags : list str) (s : str) {struct s} : option nat :=
  if existsb (fun t => starts_with t s) tags then Some O
  else match s with
       | [] => None
       | _ :: s' => S <$> find_any tags s'
       end.

(** White space in the sense of [\s] and of [String.prototype.trim], among
    the characters of the model: space, tab, line feed, vertical tab, form
    feed, carriage return and the no-break space. *)
Definition is_space (c : ascii) : bool :=
  let n := nat_of_ascii c in
  (n =? 32)%nat || (n =? 9)%nat || (n =? 10)%nat || (n =? 11)%nat
  || (n =? 12)%nat || (n =? 13)%nat || (n =? 160)%nat.

(** A word character [\w]: [[A-Za-z0-9_]]. *)
Definition is_word (c : ascii) : bool :=
  let n := nat_of_ascii c in
  ((65 <=? n) && (n <=? 90))%nat || ((97 <=? n) && (n <=? 122))%nat
  || ((48 <=? n) && (n <=? 57))%nat || (n =? 95)%nat.

(** The text left after a greedy run of characters satisfying [f]. *)
Fixpoint skip_while (f : ascii -> bool) (s : str) : str :=
  match s with
  | c :: s' => if f c then skip_while f s' else s
  | [] => []
  end.

Fixpoint trim_start (s : str) : str :=
  match s with
  | c :: s' => if is_space c then trim_start s' else s
  | [] => []
  end.

Definition trim_end (s : str) : str := rev (trim_start (rev s)).

(** [s.trim()] *)
Definition trim (s : str) : str := trim_end (trim_start s).

(** [s.endsWith(p)] *)
Definition ends_with (p s : str) : bool := starts_with (rev p) (rev s).

(** The shape of every marker of the dialects: a [<] in front and no
    other [<]. *)
Definition tag_like (t : str) : bool :=
  match t with
  | c :: t' => Ascii.eqb c "<" && forallb (fun d => negb (Ascii.eqb d "<")) t'
  | [] => false
  end.

Definition tags_like (tags : list str) : bool := forallb tag_like tags.


(** [t] occurs in [s]. *)
Definition occurs (t s : str) : Prop := exists a b, s = a ++ t ++ b.

End Text.
Export Text.

(** ** JavaScript values, exceptions and the host runtime *)

Module Js.

(** The values that flow through the core: decoded payloads, tool
    arguments and handler results.  Numbers are integers in the model. *)
Inductive value : Type :=
| VUndefined
| VNull
| VBool (b : bool)
| VNum (n : Z)
| VStr (s : str)
| VArr (items : list value)
| VObj (fields : list (str * value)).

(** What a [throw] carries. *)
Inductive exn : Type :=
| Error (name message : str)      (* an [Error] object or a subclass of it *)
| ZodError (issues : list str)    (* zod's validation error, one message per issue *)
| Thrown (v : value).             (* anything else *)

(** The result of evaluating an expression that may throw. *)
Inductive outcome (A : Type) : Type :=
| Ok (a : A)
| Throw (e : exn).
Arguments Ok {A} a.
Arguments Throw {A} e.

Definition bind {A B} (o : outcome A) (k : A -> outcome B) : outcome B :=
  match o with
  | Ok a => k a
  | Throw e => Throw e
  end.

(** [try { o } catch (e) { h e }] *)
Definition catch {A} (o : outcome A) (h : exn -> outcome A) : outcome A :=
  match o with
  | Ok a => Ok a
  | Throw e => h e
  end.

Definition is_ok {A} (o : outcome A) : bool :=
  match o with Ok _ => true | Throw _ => false end.

(** [new Error(message)] *)
Definition new_Error (message : string) : exn := Error (lit "Error") (lit message).

(** ToBoolean *)
Definition truthy (v : value) : bool :=
  match v with
  | VUndefined | VNull => false
  | VBool b => b
  | VNum n => negb (n =? 0)%Z
  | VStr s => match s with [] => false | _ => true end
  | VArr _ | VObj _ => true
  end.

(** [a || b] *)
Definition or_else (a b : value) : value := if truthy a then a else b.

Fixpoint lookup_field (k : str) (fields : list (str * value)) : value :=
  match fields with
  | [] => VUndefined
  | (k', v) :: rest => if bool_decide (k = k') then v else lookup_field k rest
  end.

(** [v.k] for one of the property names the core reads ([id],
    [tool_call_id], [name], [arguments]): reading a property of
    [undefined] or [null] throws a TypeError, an object yields the field,
    and no other value has such a property. *)
Definition get_prop (v : value) (k : string) : outcome value :=
  match v with
  | VUndefined | VNull =>
      Throw (Error (lit "TypeError") (lit "Cannot read properties of undefined"))
  | VObj fields => Ok (lookup_field (lit k) fields)
  | _ => Ok VUndefined
  end.

(** SameValueZero, the equality of [Set.prototype.has].  Arrays and objects
    are compared by reference; two values obtained from two decodings never
    share a reference. *)
Definition same_value_zero (a b : value) : bool :=
  match a, b with
  | VUndefined, VUndefined => true
  | VNull, VNull => true
  | VBool x, VBool y => Bool.eqb x y
  | VNum x, VNum y => (x =? y)%Z
  | VStr x, VStr y => bool_decide (x = y)
  | _, _ => false
  end.

(** A [Set], in insertion order. *)
Definition set_has (s : list value) (v : value) : bool :=
  existsb (same_value_zero v) s.

Definition set_add (s : list value) (v : value) : list value :=
  if set_has s v then s else s ++ [v].

(** The parts of the host that the core calls and that live outside the
    repository: the JSON built-ins, js-yaml's loader and the string
    conversions of thrown values. *)
Class Runtime : Type := {
  JSON_parse : str -> outcome value;         (* JSON.parse *)
  JSON_stringify : value -> outcome value;   (* JSON.stringify: a string or undefined,
                                                or a throw (a cycle, a BigInt) *)
  yaml_load : str -> outcome value;          (* yaml.load of js-yaml *)
  zod_message : list str -> str;             (* the [message] of a ZodError *)
  zod_to_string : list str -> str;           (* String(zodError) *)
  String_of : value -> str                   (* String(v) *)
}.

(** [`${e}`] *)
Definition exn_to_string `{Runtime} (e : exn) : str :=
  match e with
  | Error name message =>
      match name, message with
      | [], _ => message
      | _, [] => name
      | _, _ => name ++ lit ": " ++ message
      end
  | ZodError issues => zod_to_string issues
  | Thrown v => String_of v
  end.

(** [error instanceof Error ? error.message : 'Unknown error'] *)
Definition exn_message `{Runtime} (e : exn) : str :=
  match e with
  | Error _ message => message
  | ZodError issues => zod_message issues
  | Thrown _ => lit "Unknown error"
  end.

(** [typeof r === 'string' ? r : JSON.stringify(r)] *)
Definition stringify_result `{Runtime} (r : value) : outcome value :=
  match r with
  | VStr _ => Ok r
  | _ => JSON_stringify r
  end.

(** [xs.join(sep)] *)
Fixpoint join (sep : str) (xs : list str) : str :=
  match xs with
  | [] => []
  | [x] => x
  | x :: rest => x ++ sep ++ join sep rest
  end.

(** A value that [Set.prototype.has] compares by content. *)
Definition primitive (v : value) : bool :=
  match v with
  | VArr _ | VObj _ => false
  | _ => true
  end.

End Js.
Export Js.

(** ** Payload decoder (extractor/streaming/toolCallParser.ts) *)

Module Decoder.

Inductive Format : Type := F_json | F_xml | F_yaml | F_auto.

Definition newline : ascii := ascii_of_nat 10.

(** [text.match(/^```(?:\w+)?\n([\s\S]*?)\n```$/)]: an opening fence, an
    optional language word, a line break, the body, a line break and the
    closing fence at the very end. *)
Definition code_block_match (text : str) : option str :=
  if starts_with (lit "```") text then
    match skip_while is_word (drop 3 text) with
    | c :: body =>
        if Ascii.eqb c newline && ends_with (newline :: lit "```") body
        then Some (take (length body - 4) body)
        else None
    | [] => None
    end
  else None.

Definition stripMarkdownCodeBlock (text : str) : str :=
  match code_block_match (trim text) with
  | Some inner => trim inner
  | None => trim text
  end.

(** [str.match(/({[\s\S]*})/)]: the leftmost brace that has a closing
    brace after it, up to the last closing brace. *)
Fixpoint exec_greedy (op cl s : str) {struct s} : option str :=
  let here :=
    if starts_with op s then split_at_last cl (drop (length op) s) else None in
  match here with
  | Some (inner, _) => Some (op ++ inner ++ cl)
  | None =>
      match s with
      | [] => None
      | _ :: s' => exec_greedy op cl s'
      end
  end.

Section WithRuntime.
Context `{Runtime}.

Definition tryParseJson (s : str) : outcome value :=
  catch (JSON_parse s) (fun _ =>
    match exec_greedy (lit "{") (lit "}") s with
    | Some m => JSON_parse m
    | None => Throw (new_Error "Malformed JSON in tool/function call payload.")
    end).

Definition parseXml (s : str) : outcome value :=
  let nameMatch := exec_block (lit "<name>") (lit "</name>") s in
  let argsMatch := exec_block (lit "<arguments>") (lit "</arguments>") s in
  match nameMatch with
  | None => Throw (new_Error "No <name> in XML payload.")
  | Some (_, name, _) =>
      let args :=
        match argsMatch with
        | Some (_, a, _) => trim a
        | None => lit "{}"
        end in
      let args' :=
        match JSON_parse args with
        | Ok v => v
        | Throw _ =>
            match yaml_load args with
            | Ok v => v
            | Throw _ => VStr args
            end
        end in
      Ok (VObj [(lit "name", VStr (trim name)); (lit "arguments", args')])
  end.

(** The error thrown when no decoder accepts the payload. *)
Definition aggregate_error : exn :=
  new_Error "Could not parse tool/function call payload as JSON, YAML, or XML.".

Definition parseToolCallPayload (s : str) (format : Format) : outcome value :=
  let s := stripMarkdownCodeBlock (trim s) in
  match format with
  | F_json => tryParseJson s
  | F_yaml => yaml_load s
  | F_xml => parseXml s
  | F_auto =>
      catch (tryParseJson s) (fun _ =>
      catch (yaml_load s) (fun _ =>
      catch (parseXml s) (fun _ =>
      Throw aggregate_error)))
  end.

End WithRuntime.

End Decoder.
Export Decoder.

(** ** Dialect buffer (extractor/streaming/streamingToolCallBuffer.ts) *)

Module Buffer.

Inductive Protocol : Type := P_function_calling | P_tool_use | P_tool | P_auto.

Record StreamingToolCallBuffer : Type := {
  buffer : str;
  format : Format;
  protocol : Protocol
}.

(** [new StreamingToolCallBuffer({ protocol, format })] *)
Definition new_buffer (p : Protocol) (f : option Format) : StreamingToolCallBuffer :=
  {| buffer := []; format := default F_auto f; protocol := p |}.

(** The three dialects, each an open and a close tag. *)
Definition function_call : str * str := (lit "<function_call>", lit "</function_call>").
Definition tool_use : str * str := (lit "<tool_use>", lit "</tool_use>").
Definition tool_call : str * str := (lit "<tool_call>", lit "</tool_call>").

(** The table [patterns] of [push]. *)
Definition patterns (p : Protocol) : list (str * str) :=
  match p with
  | P_function_calling => [function_call]
  | P_tool_use => [tool_use]
  | P_tool => [tool_call; function_call]
  | P_auto => [function_call; tool_use; tool_call]
  end.

Definition open_tags : list str := [function_call.1; tool_use.1; tool_call.1].

Section WithRuntime.
Context `{Runtime}.

(** One round of the inner [while] loop: decode the captured body; a
    failure is swallowed by the empty [catch]. *)
Definition scan_match (f : Format) (acc : list value * bool) (inner : str)
  : list value * bool :=
  match parseToolCallPayload inner f with
  | Ok parsed => (acc.1 ++ [parsed], true)
  | Throw _ => acc
  end.

(** The [for (const pat of pats)] loop with its inner [while]. *)
Definition scan_patterns (f : Format) (pats : list (str * str)) (buf : str)
  : list value * bool :=
  fold_left
    (fun acc pat => fold_left (scan_match f) (exec_all pat.1 pat.2 buf) acc)
    pats ([], false).

(** The three chained [replace] calls. *)
Definition remove_processed (buf : str) : str :=
  remove_blocks tool_call.1 tool_call.2
    (remove_blocks tool_use.1 tool_use.2
       (remove_blocks function_call.1 function_call.2 buf)).

(** [push(chunk)]: the buffer after the call and the returned array, or
    [None] for [null]. *)
Definition push (b : StreamingToolCallBuffer) (chunk : str)
  : StreamingToolCallBuffer * option (list value) :=
  let buf := buffer b ++ chunk in
  let '(toolCalls, found) := scan_patterns (format b) (patterns (protocol b)) buf in
  if found then
    ({| buffer := remove_processed buf; format := format b; protocol := protocol b |},
     if (0 <? length toolCalls)%nat then Some toolCalls else None)
  else
    ({| buffer := buf; format := format b; protocol := protocol b |}, None).

Definition getRawBuffer (b : StreamingToolCallBuffer) : str := buffer b.

(** [getVisibleContent()]: the buffer up to the first open tag. *)
Definition getVisibleContent (b : StreamingToolCallBuffer) : str :=
  match find_any open_tags (buffer b) with
  | None => buffer b
  | Some idx => take idx (buffer b)
  end.

(** A run of pushes: what every push returned and the visible content
    right after it. *)
Fixpoint push_all (b : StreamingToolCallBuffer) (chunks : list str)
  : list (option (list value) * str) :=
  match chunks with
  | [] => []
  | c :: rest =>
      let '(b', r) := push b c in
      (r, getVisibleContent b') :: push_all b' rest
  end.

End WithRuntime.

(** The text of one [<tool_call>] block around [payload]. *)
Definition block (payload : str) : str := tool_call.1 ++ payload ++ tool_call.2.

(** The calls reported over a run of pushes. *)
Definition detected (run : list (option (list value) * str)) : list value :=
  concat (map (fun x => default [] x.1) run).


(** The buffer after some pushes that brought [received], a prefix of the
    block, in all. *)
Definition tracks (p : Protocol) (f : Format) (payload : str)
    (b : StreamingToolCallBuffer) (received : str) : Prop :=
  format b = f /\ protocol b = p
  /\ ((received <> block payload /\ buffer b = received)
      \/ (received = block payload /\ buffer b = [])).

End Buffer.
Export Buffer.

(** ** A reference runtime

    An executable instance of [Runtime] for closed examples: a JSON reader
    and writer for the integer fragment of JSON (objects, arrays, strings
    with the simple escapes, integers, [true], [false], [null]), and a YAML
    loader that accepts the same flow-style fragment.  The general
    theorems below hold for every runtime. *)

Module Reference.

Definition syntax_error : exn := Error (lit "SyntaxError") (lit "Unexpected token").

Definition json_space (c : ascii) : bool :=
  let n := nat_of_ascii c in
  (n =? 32)%nat || (n =? 9)%nat || (n =? 10)%nat || (n =? 13)%nat.

Definition is_digit (c : ascii) : bool :=
  let n := nat_of_ascii c in ((48 <=? n) && (n <=? 57))%nat.

Definition digit_val (c : ascii) : Z := Z.of_nat (nat_of_ascii c) - 48.

(** The characters of a string literal after its opening quote. *)
Fixpoint read_string (s acc : str) : option (str * str) :=
  match s with
  | [] => None
  | c :: r =>
      if Ascii.eqb c dquote then Some (rev acc, r)
      else if Ascii.eqb c backslash then
        match r with
        | e :: r' =>
            if Ascii.eqb e dquote || Ascii.eqb e backslash || Ascii.eqb e "/"
            then read_string r' (e :: acc)
            else if Ascii.eqb e "n" then read_string r' (newline :: acc)
            else if Ascii.eqb e "t" then read_string r' (ascii_of_nat 9 :: acc)
            else None
        | [] => None
        end
      else if (nat_of_ascii c <? 32)%nat then None
      else read_string r (c :: acc)
  end.

Fixpoint read_digits (s : str) (acc : Z) : Z * str :=
  match s with
  | c :: r => if is_digit c then read_digits r (10 * acc + digit_val c) else (acc, s)
  | [] => (acc, [])
  end.

(** An unsigned integer literal without a leading zero. *)
Definition read_nat (s : str) : option (Z * str) :=
  match s with
  | c :: r =>
      if Ascii.eqb c "0" then Some (0%Z, r)
      else if is_digit c then Some (read_digits s 0)
      else None
  | [] => None
  end.

Definition set_field (k : str) (v : value) (fields : list (str * value))
  : list (str * value) :=
  filter (fun kv => k ≠ kv.1) fields ++ [(k, v)].

Fixpoint read_value (fuel : nat) (s : str) : option (value * str) :=
  match fuel with
  | O => None
  | S fuel' =>
      let items :=
        fix items (n : nat) (r : str) (acc : list value) : option (value * str) :=
          match n with
          | O => None
          | S n' =>
              match read_value fuel' r with
              | Some (v, r1) =>
                  match skip_while json_space r1 with
                  | c :: r2 =>
                      if Ascii.eqb c "," then items n' r2 (acc ++ [v])
                      else if Ascii.eqb c "]" then Some (VArr (acc ++ [v]), r2)
                      else None
                  | [] => None
                  end
              | None => None
              end
          end in
      let members :=
        fix members (n : nat) (r : str) (acc : list (str * value))
          : option (value * str) :=
          match n with
          | O => None
          | S n' =>
              match skip_while json_space r with
              | q :: r0 =>
                  if Ascii.eqb q dquote then
                    match read_string r0 [] with
                    | Some (k, r1) =>
                        match skip_while json_space r1 with
                        | c :: r2 =>
                            if Ascii.eqb c ":" then
                              match read_value fuel' r2 with
                              | Some (v, r3) =>
                                  match skip_while json_space r3 with
                                  | d :: r4 =>
                                      if Ascii.eqb d ","
                                      then members n' r4 (set_field k v acc)
                                      else if Ascii.eqb d "}"
                                      then Some (VObj (set_field k v acc), r4)
                                      else None
                                  | [] => None
                                  end
                              | None => None
                              end
                            else None
                        | [] => None
                        end
                    | None => None
                    end
                  else None
              | [] => None
              end
          end in
      match skip_while json_space s with
      | [] => None
      | c :: r =>
          if starts_with (lit "null") (c :: r) then Some (VNull, drop 4 (c :: r))
          else if starts_with (lit "true") (c :: r) then Some (VBool true, drop 4 (c :: r))
          else if starts_with (lit "false") (c :: r) then Some (VBool false, drop 5 (c :: r))
          else if Ascii.eqb c dquote then
            match read_string r [] with
            | Some (k, r') => Some (VStr k, r')
            | None => None
            end
          else if Ascii.eqb c "[" then
            match skip_while json_space r with
            | d :: r' => if Ascii.eqb d "]" then Some (VArr [], r')
                         else items (length r) r []
            | [] => None
            end
          else if Ascii.eqb c "{" then
            match skip_while json_space r with
            | d :: r' => if Ascii.eqb d "}" then Some (VObj [], r')
                         else members (length r) r []
            | [] => None
            end
          else if Ascii.eqb c "-" then
            match read_nat r with
            | Some (n, r') => Some (VNum (- n), r')
            | None => None
            end
          else
            match read_nat (c :: r) with
            | Some (n, r') => Some (VNum n, r')
            | None => None
            end
      end
  end.

Definition json_parse (s : str) : outcome value :=
  match read_value (S (length s)) s with
  | Some (v, rest) =>
      match skip_while json_space rest with
      | [] => Ok v
      | _ :: _ => Throw syntax_error
      end
  | None => Throw syntax_error
  end.

Definition quote (s : str) : str :=
  dquote
    :: flat_map (fun c => if Ascii.eqb c dquote || Ascii.eqb c backslash
                          then [backslash; c] else [c]) s
    ++ [dquote].

Definition Z_to_str (n : Z) : str :=
  lit (NilEmpty.string_of_int (Z.to_int n)).

Fixpoint to_json (v : value) : str :=
  match v with
  | VUndefined | VNull => lit "null"
  | VBool true => lit "true"
  | VBool false => lit "false"
  | VNum n => Z_to_str n
  | VStr s => quote s
  | VArr items =>
      lit "[" ++ join (lit ",") (map to_json items) ++ lit "]"
  | VObj fields =>
      lit "{"
        ++ join (lit ",")
             (map (fun kv => quote (fst kv) ++ lit ":" ++ to_json (snd kv)) fields)
        ++ lit "}"
  end.

Definition json_stringify (v : value) : value :=
  match v with
  | VUndefined => VUndefined
  | _ => VStr (to_json v)
  end.

Definition yaml_flow (s : str) : outcome value :=
  match skip_while json_space s with
  | [] => Ok VUndefined
  | _ :: _ => json_parse s
  end.

Definition to_String (v : value) : str :=
  match v with
  | VStr s => s
  | VUndefined => lit "undefined"
  | _ => to_json v
  end.

Definition runtime : Runtime := {|
  JSON_parse := json_parse;
  JSON_stringify := fun v => Ok (json_stringify v);
  yaml_load := yaml_flow;
  zod_message := fun issues => to_json (VArr (map VStr issues));
  zod_to_string := fun issues => to_json (VArr (map VStr issues));
  String_of := to_String
|}.

End Reference.

(** ** Conversation messages and tools (chat/types.ts, tools/types.ts) *)

Module Chat.

Inductive Role : Type := system | user | assistant.

(** [ChatMessage]: a plain message or a [ToolMessage] (role ['tool']). *)
Inductive ChatMessage : Type :=
| Message (role : Role) (content : value)
| ToolMessage (name : value) (content : value) (args : value).

Definition is_tool_message (m : ChatMessage) : bool :=
  match m with
  | ToolMessage _ _ _ => true
  | Message _ _ => false
  end.

Section WithWorld.
(** Everything a tool handler can observe and change. *)
Context {W : Type}.

(** One invocation of a handler: how its promise settles, after how many
    milliseconds, and the world it leaves behind. *)
Record HandlerRun : Type := {
  settled : outcome value;
  elapsed : Z;
  after : W
}.

Record ToolDefinition : Type := {
  name : str;
  description : str;
  schema : value -> outcome value;      (* [schema.parse] *)
  handler : value -> W -> HandlerRun
}.

End WithWorld.
Arguments HandlerRun W : clear implicits.
Arguments ToolDefinition W : clear implicits.

End Chat.
Export Chat.

(** ** Tool registry (mcp/MCPService.ts) *)

Module MCP.

Section WithWorld.
Context {W : Type}.

Record MCPService : Type := {
  tools : gmap str (ToolDefinition W)
}.

Definition new_service : MCPService := {| tools := ∅ |}.

Definition registerTool (tool : ToolDefinition W) (svc : MCPService)
  : outcome MCPService :=
  match tools svc !! name tool with
  | Some _ =>
      Throw (Error (lit "Error")
               (lit "Tool '" ++ name tool ++ lit "' already registered."))
  | None => Ok {| tools := <[name tool := tool]> (tools svc) |}
  end.

Definition getTool (svc : MCPService) (n : str) : option (ToolDefinition W) :=
  tools svc !! n.

(** The callback [getTool] handed to the legacy orchestrator: a [Map]
    lookup, which finds nothing for a key that is not a string. *)
Definition getTool_value (svc : MCPService) (n : value) : option (ToolDefinition W) :=
  match n with
  | VStr s => getTool svc s
  | _ => None
  end.

(** What one [executeTool] call did: how its promise settles, the delay of
    the handler when it ran, the world afterwards and the handler
    invocations made (at most one). *)
Record Execution : Type := {
  exec_outcome : outcome value;
  exec_elapsed : option Z;
  exec_world : W;
  exec_invoked : list (str * value)
}.

Definition executeTool (svc : MCPService) (n : str) (args : value) (w : W)
  : Execution :=
  match getTool svc n with
  | None =>
      {| exec_outcome :=
           Throw (Error (lit "Error") (lit "Tool '" ++ n ++ lit "' not found"));
         exec_elapsed := None; exec_world := w; exec_invoked := [] |}
  | Some tool =>
      match schema tool args with
      | Throw e =>
          {| exec_outcome := Throw e; exec_elapsed := None;
             exec_world := w; exec_invoked := [] |}
      | Ok parsedArgs =>
          let run := handler tool parsedArgs w in
          {| exec_outcome := settled run; exec_elapsed := Some (elapsed run);
             exec_world := after run; exec_invoked := [(name tool, parsedArgs)] |}
      end
  end.

End WithWorld.
Arguments MCPService W : clear implicits.
Arguments Execution W : clear implicits.

End MCP.
Export MCP.

(** ** Legacy orchestrator (chat/toolCallHandler.ts and the legacy session
    of the same directory) *)

Module Legacy.

(** [ToolCallResult] of chat/types.ts. *)
Record ToolCallResult : Type := {
  id : value;
  name : value;
  args : value;
  result : option value;
  error : option str;
  raw : value
}.

Section WithWorld.
Context `{Runtime} {W : Type}.

(** What the orchestrator mutates: the history behind [addMessage], the
    shared set of processed ids, the world of the handlers, and two
    records kept for the proofs: the handler invocations (tool name and
    validated arguments) and the calls warned about on the console. *)
Record State : Type := {
  history : list ChatMessage;
  seenIds : list value;
  world : W;
  invocations : list (str * value);
  warnings : list value
}.

Definition addMessage (m : ChatMessage) (st : State) : State :=
  {| history := history st ++ [m]; seenIds := seenIds st; world := world st;
     invocations := invocations st; warnings := warnings st |}.

Definition warn (toolCall : value) (st : State) : State :=
  {| history := history st; seenIds := seenIds st; world := world st;
     invocations := invocations st; warnings := warnings st ++ [toolCall] |}.

Definition add_seen (callId : value) (st : State) : State :=
  {| history := history st; seenIds := set_add (seenIds st) callId;
     world := world st; invocations := invocations st; warnings := warnings st |}.

Definition invoked (tool : ToolDefinition W) (parsedArgs : value) (w : W) (st : State)
  : State :=
  {| history := history st; seenIds := seenIds st; world := w;
     invocations := invocations st ++ [(Chat.name tool, parsedArgs)];
     warnings := warnings st |}.

(** [toolCall.id || toolCall.tool_call_id] *)
Definition callId_of (toolCall : value) : outcome value :=
  bind (get_prop toolCall "id") (fun i =>
    if truthy i then Ok i else get_prop toolCall "tool_call_id").

(** [toolCall.name || 'unknown'] and [toolCall.arguments || {}], read where
    [toolCall] is known not to be null. *)
Definition prop_or (toolCall : value) (k : string) (dflt : value) : value :=
  match get_prop toolCall k with
  | Ok v => or_else v dflt
  | Throw _ => dflt
  end.

(** How the [try] block of one call ends. *)
Inductive Attempt : Type :=
| Invalid (tool : ToolDefinition W) (issues : list str)
    (* the schema rejected the arguments with a ZodError *)
| Succeeded (tool : ToolDefinition W) (parsedArgs toolResult content : value) (w : W)
    (* the handler resolved and its result was turned into the content of
       the tool message *)
| Caught (e : exn) (called : option (ToolDefinition W * value)) (w : W).
    (* any other throw: before or inside the handler, or when its result
       is stringified *)

(** The [try] block up to the point where its outcome is known. *)
Definition attempt (getTool : value -> option (ToolDefinition W))
    (toolCall : value) (w : W) : Attempt :=
  match get_prop toolCall "name" with
  | Throw e => Caught e None w
  | Ok n =>
      if negb (truthy n)
      then Caught (new_Error "No tool/function name specified.") None w
      else
        match getTool n with
        | None =>
            Caught (Error (lit "Error")
                      (lit "Tool '" ++ String_of n ++ lit "' not registered."))
                   None w
        | Some tool =>
            match schema tool (prop_or toolCall "arguments" (VObj [])) with
            | Throw (ZodError issues) => Invalid tool issues
            | Throw e => Caught e None w
            | Ok parsedArgs =>
                let run := handler tool parsedArgs w in
                match settled run with
                | Ok toolResult =>
                    match stringify_result toolResult with
                    | Ok content =>
                        Succeeded tool parsedArgs toolResult content (after run)
                    | Throw e => Caught e (Some (tool, parsedArgs)) (after run)
                    end
                | Throw e => Caught e (Some (tool, parsedArgs)) (after run)
                end
            end
        end
  end.

(** The message and the result record that one attempt produces, in
    [handleToolCallFromModelOutput]. *)
Definition settle (callId toolCall : value) (a : Attempt)
    (acc : State * list ToolCallResult) : State * list ToolCallResult :=
  let '(st, results) := acc in
  match a with
  | Invalid tool issues =>
      let errMsg :=
        lit "Invalid arguments for tool '" ++ Chat.name tool ++ lit "': "
          ++ join (lit "; ") issues in
      (addMessage (Message assistant (VStr errMsg)) st,
       results ++ [{| id := callId; name := VStr (Chat.name tool);
                      args := prop_or toolCall "arguments" (VObj []);
                      result := None; error := Some errMsg; raw := toolCall |}])
  | Succeeded tool parsedArgs toolResult content w =>
      (addMessage
         (ToolMessage (VStr (Chat.name tool)) content parsedArgs)
         (invoked tool parsedArgs w st),
       results ++ [{| id := callId; name := VStr (Chat.name tool); args := parsedArgs;
                      result := Some toolResult; error := None; raw := toolCall |}])
  | Caught e called w =>
      let errMsg := lit "Function/tool call error: " ++ exn_to_string e in
      let st' :=
        match called with
        | Some (tool, parsedArgs) => invoked tool parsedArgs w st
        | None => st
        end in
      (addMessage (Message assistant (VStr errMsg)) st',
       results ++ [{| id := callId; name := prop_or toolCall "name" (VStr (lit "unknown"));
                      args := prop_or toolCall "arguments" (VObj []);
                      result := None; error := Some errMsg; raw := toolCall |}])
  end.

(** The body of [for (const toolCall of toolCalls)]. *)
Definition handle_call (getTool : value -> option (ToolDefinition W))
    (toolCall : value) (acc : State * list ToolCallResult)
  : outcome (State * list ToolCallResult) :=
  bind (callId_of toolCall) (fun callId =>
    let st := if truthy callId then acc.1 else warn toolCall acc.1 in
    if truthy callId && set_has (seenIds st) callId
    then Ok (st, acc.2)
    else
      let st := if truthy callId then add_seen callId st else st in
      Ok (settle callId toolCall (attempt getTool toolCall (world st)) (st, acc.2))).

Fixpoint handle_calls (getTool : value -> option (ToolDefinition W))
    (toolCalls : list value) (acc : State * list ToolCallResult)
  : outcome (State * list ToolCallResult) :=
  match toolCalls with
  | [] => Ok acc
  | toolCall :: rest =>
      bind (handle_call getTool toolCall acc) (handle_calls getTool rest)
  end.

(** The state in which a call of [handleToolCallFromModelOutput] starts:
    [processedToolCallIds || new Set()]. *)
Definition enter (processedToolCallIds : option (list value)) (st : State) : State :=
  {| history := history st; seenIds := default [] processedToolCallIds;
     world := world st; invocations := invocations st; warnings := warnings st |}.

Definition handleToolCallFromModelOutput
    (protocol : Protocol) (toolCallFormat : Format) (modelOutput : str)
    (getTool : value -> option (ToolDefinition W))
    (processedToolCallIds : option (list value)) (st : State)
  : outcome (list ToolCallResult * State) :=
  let buffer := new_buffer protocol (Some toolCallFormat) in
  let toolCalls := (push buffer modelOutput).2 in
  let st := enter processedToolCallIds st in
  match toolCalls with
  | Some (c :: cs) =>
      bind (handle_calls getTool (c :: cs) (st, []))
           (fun '(st', results) => Ok (results, st'))
  | _ =>
      Ok ([{| id := VUndefined; name := VStr (lit "none"); args := VObj [];
              result := Some (VStr modelOutput); error := None;
              raw := VStr modelOutput |}],
          addMessage (Message assistant (VStr modelOutput)) st)
  end.

(** *** [LegacyChatSession.chat], from the segments on *)

Inductive Segment : Type :=
| content_segment (text : str)
| tool_call_segment (toolCall : value).

Record Session : Type := {
  s_history : list ChatMessage;
  lastToolCallResults : list ToolCallResult;
  s_world : W;
  s_invocations : list (str * value)
}.

Definition s_addMessage (m : ChatMessage) (s : Session) : Session :=
  {| s_history := s_history s ++ [m]; lastToolCallResults := lastToolCallResults s;
     s_world := s_world s; s_invocations := s_invocations s |}.

Definition s_record (r : ToolCallResult) (w : W) (inv : list (str * value))
    (s : Session) : Session :=
  {| s_history := s_history s; lastToolCallResults := lastToolCallResults s ++ [r];
     s_world := w; s_invocations := s_invocations s ++ inv |}.

(** The [try]/[catch] of a [tool_call] segment in [chat]: here a schema
    failure is not told apart, and the failure message has role ['tool']. *)
Definition chat_tool_call (getTool : value -> option (ToolDefinition W))
    (callId toolCall : value) (s : Session) : Session :=
  let failure e inv w :=
    let errMsg := lit "Function/tool call error: " ++ exn_to_string e in
    s_record {| id := callId; name := prop_or toolCall "name" (VStr (lit "unknown"));
                args := prop_or toolCall "arguments" (VObj []);
                result := None; error := Some errMsg; raw := toolCall |} w inv
      (s_addMessage
         (ToolMessage (prop_or toolCall "name" (VStr (lit "unknown"))) (VStr errMsg)
            (prop_or toolCall "arguments" (VObj []))) s) in
  match attempt getTool toolCall (s_world s) with
  | Invalid tool issues => failure (ZodError issues) [] (s_world s)
  | Caught e None w => failure e [] w
  | Caught e (Some (tool, parsedArgs)) w => failure e [(Chat.name tool, parsedArgs)] w
  | Succeeded tool parsedArgs toolResult content w =>
      s_record {| id := callId; name := VStr (Chat.name tool); args := parsedArgs;
                  result := Some toolResult; error := None; raw := toolCall |}
        w [(Chat.name tool, parsedArgs)]
        (s_addMessage (ToolMessage (VStr (Chat.name tool)) content parsedArgs) s)
  end.

(** [seg.text.trim().length > 0] *)
Definition non_blank (text : str) : bool :=
  match trim text with [] => false | _ :: _ => true end.

(** The loop over the segments: the session, [visibleText] and
    [contentBuffer] after each segment. *)
Fixpoint chat_loop (combine : bool) (getTool : value -> option (ToolDefinition W))
    (segments : list Segment) (visibleText contentBuffer : str) (s : Session)
  : outcome (str * str * Session) :=
  match segments with
  | [] => Ok (visibleText, contentBuffer, s)
  | content_segment text :: rest =>
      if combine
      then chat_loop combine getTool rest visibleText (contentBuffer ++ text) s
      else if non_blank text
      then chat_loop combine getTool rest (visibleText ++ text) contentBuffer
             (s_addMessage (Message assistant (VStr text)) s)
      else chat_loop combine getTool rest visibleText contentBuffer s
  | tool_call_segment toolCall :: rest =>
      bind (callId_of toolCall) (fun callId =>
        chat_loop combine getTool rest visibleText contentBuffer
          (chat_tool_call getTool callId toolCall s))
  end.

(** [chat] once the model output has been cut into segments: the loop,
    then the flush of the combined content. *)
Definition chat_segments (combine : bool)
    (getTool : value -> option (ToolDefinition W)) (segments : list Segment)
    (s : Session) : outcome (str * Session) :=
  bind (chat_loop combine getTool segments [] [] s)
    (fun '(visibleText, contentBuffer, s') =>
       if combine && non_blank contentBuffer
       then Ok (visibleText ++ contentBuffer,
                s_addMessage (Message assistant (VStr contentBuffer)) s')
       else Ok (visibleText, s')).

End WithWorld.
Arguments State W : clear implicits.
Arguments Session W : clear implicits.
Arguments Attempt W : clear implicits.

End Legacy.

(** ** Session orchestrator (session/ChatSession.ts) *)

Module ChatSession.

(** [ToolCall] and [ExtractedSegment] of extractor/MessageExtractor.ts. *)
Record ToolCall : Type := {
  tc_id : option str;
  tc_name : str;
  tc_arguments : value
}.

Inductive ExtractedSegment : Type :=
| content (data : str)
| tool_call (data : ToolCall)
| other.                               (* type 'system' or 'error' *)

(** [ToolCallResult] of the session; an absent id stands for the id made up
    from the clock, and the timestamp is left out. *)
Record ToolCallResult : Type := {
  r_id : option str;
  r_name : str;
  r_arguments : value;
  r_result : option value;
  r_error : option str
}.

Section WithWorld.
Context `{Runtime} {W : Type}.

(** A callback handed in by the caller ([onToolCall], [onError],
    [onResult]): while it runs it may change the world, and it may throw;
    what it returns is not looked at. *)
Definition Callback (A : Type) : Type := A -> W -> outcome unit * W.

Record ChatSessionOptions : Type := {
  toolCallTimeout : Z;
  agenticMode : bool;
  maxAgenticIterations : option Z;
  onToolCall : option (Callback (ToolCall * value));
  onError : option (Callback exn)
}.

(** What the session is built from.  [completion] stands for
    [provider.completion] followed by [extractor.extract]: from the
    history and the world to the segments of the answer, or a throw of the
    provider. *)
Record Config : Type := {
  options : ChatSessionOptions;
  mcpService : option (MCPService W);
  completion : list ChatMessage -> W -> outcome (list ExtractedSegment) * W
}.

(** What the session mutates, with two counters kept for the proofs: the
    handler invocations and the number of model invocations. *)
Record Session : Type := {
  history : list ChatMessage;
  toolCallResults : list ToolCallResult;
  world : W;
  invocations : list (str * value);
  completions : nat
}.

Definition addMessage (m : ChatMessage) (s : Session) : Session :=
  {| history := history s ++ [m]; toolCallResults := toolCallResults s;
     world := world s; invocations := invocations s; completions := completions s |}.

(** [this.toolCallResults.push(toolResult)] *)
Definition push_result (r : ToolCallResult) (s : Session) : Session :=
  {| history := history s; toolCallResults := toolCallResults s ++ [r];
     world := world s; invocations := invocations s; completions := completions s |}.

Definition set_world (w : W) (s : Session) : Session :=
  {| history := history s; toolCallResults := toolCallResults s;
     world := w; invocations := invocations s; completions := completions s |}.

(** *** Statements that change the session and may throw *)

(** A piece of a method body: from the session to its outcome and the
    session it leaves; what was done before a throw stays done. *)
Definition Step (A : Type) : Type := Session -> outcome A * Session.

Definition ret {A} (a : A) : Step A := fun s => (Ok a, s).

Definition lift {A} (o : outcome A) : Step A := fun s => (o, s).

Definition modify (f : Session -> Session) : Step unit := fun s => (Ok tt, f s).

Definition and_then {A B} (m : Step A) (k : A -> Step B) : Step B :=
  fun s =>
    match m s with
    | (Ok a, s') => k a s'
    | (Throw e, s') => (Throw e, s')
    end.

(** [try { m } catch (error) { h error }] *)
Definition try_catch {A} (m : Step A) (h : exn -> Step A) : Step A :=
  fun s =>
    match m s with
    | (Ok a, s') => (Ok a, s')
    | (Throw e, s') => h e s'
    end.

(** [callback?.(a)] *)
Definition notify {A} (callback : option (Callback A)) (a : A) : Step unit :=
  fun s =>
    match callback with
    | Some f => let '(r, w) := f a (world s) in (r, set_world w s)
    | None => (Ok tt, s)
    end.

Notation "x <- m ;; k" := (and_then m (fun x => k))
  (at level 20, m at level 99, k at level 200).
Notation "m ;;; k" := (and_then m (fun _ => k))
  (at level 100, k at level 200, right associativity).

(** *** Tool calls *)

(** The delay that [setTimeout] waits: a delay below 1 or above 2^31 - 1
    is set to 1. *)
Definition timer_delay (ms : Z) : Z :=
  if (ms <? 1)%Z || (2147483647 <? ms)%Z then 1%Z else ms.

(** [Promise.race] of the tool execution against the timer: a failure
    before the handler runs rejects at once; a handler wins when it settles
    before the timer is due, and also when it settles just then (it was
    started first); a handler that needs longer loses to the timer. *)
Definition race (timeout : Z) (e : Execution W) : outcome value :=
  match exec_elapsed e with
  | Some t =>
      if (t <=? timer_delay timeout)%Z then exec_outcome e
      else Throw (new_Error "Tool call timeout")
  | None => exec_outcome e
  end.

(** The check of the service and the call of [executeTool]. *)
Definition run_call (cfg : Config) (toolCall : ToolCall) (w : W) : Execution W :=
  match mcpService cfg with
  | None =>
      {| exec_outcome := Throw (new_Error "MCP service not available");
         exec_elapsed := None; exec_world := w; exec_invoked := [] |}
  | Some svc => executeTool svc (tc_name toolCall) (tc_arguments toolCall) w
  end.

(** [const result = await Promise.race([...])]: the handler, when it is
    reached, runs to its end whoever wins the race (the timer cancels
    nothing); its effects on the world are taken to be complete when the
    race is decided. *)
Definition call_tool (cfg : Config) (toolCall : ToolCall) : Step value :=
  fun s =>
    let e := run_call cfg toolCall (world s) in
    (race (toolCallTimeout (options cfg)) e,
     {| history := history s; toolCallResults := toolCallResults s;
        world := exec_world e; invocations := invocations s ++ exec_invoked e;
        completions := completions s |}).

(** [toolCall.id || `call_${Date.now()}`] *)
Definition result_id (toolCall : ToolCall) : option str :=
  match tc_id toolCall with
  | Some (c :: i) => Some (c :: i)
  | _ => None
  end.

Definition success_result (toolCall : ToolCall) (result : value) : ToolCallResult :=
  {| r_id := result_id toolCall; r_name := tc_name toolCall;
     r_arguments := tc_arguments toolCall;
     r_result := Some result; r_error := None |}.

Definition error_result (toolCall : ToolCall) (errorMsg : str) : ToolCallResult :=
  {| r_id := result_id toolCall; r_name := tc_name toolCall;
     r_arguments := tc_arguments toolCall;
     r_result := None; r_error := Some errorMsg |}.

Definition tool_message (toolCall : ToolCall) (content : value) : ChatMessage :=
  ToolMessage (VStr (tc_name toolCall)) content (tc_arguments toolCall).

Definition error_message (toolCall : ToolCall) (errorMsg : str) : ChatMessage :=
  Message assistant
    (VStr (lit "Error executing " ++ tc_name toolCall ++ lit ": " ++ errorMsg)).

(** [error instanceof Error ? error : new Error(errorMsg)] *)
Definition as_Error (error : exn) : exn :=
  match error with
  | Thrown _ => new_Error "Unknown error"
  | _ => error
  end.

(** The [catch] block of [executeToolCalls]: the error is logged as a
    result, the callbacks are told, and the error message is appended. *)
Definition report_error (cfg : Config) (onResult : option (Callback ToolCallResult))
    (toolCall : ToolCall) (error : exn) : Step unit :=
  let errorMsg := exn_message error in
  let toolResult := error_result toolCall errorMsg in
  modify (push_result toolResult) ;;;
  notify (onError (options cfg)) (as_Error error) ;;;
  notify onResult toolResult ;;;
  modify (addMessage (error_message toolCall errorMsg)).

(** The body of [for (const toolCall of toolCalls)]: the [try] block, in
    which the result is logged before the callbacks are told and before
    the result is turned into the content of the tool message, and the
    [catch] block. *)
Definition execute_call (cfg : Config) (onResult : option (Callback ToolCallResult))
    (toolCall : ToolCall) : Step unit :=
  try_catch
    (result <- call_tool cfg toolCall ;;
     let toolResult := success_result toolCall result in
     modify (push_result toolResult) ;;;
     notify (onToolCall (options cfg)) (toolCall, result) ;;;
     notify onResult toolResult ;;;
     text <- lift (stringify_result result) ;;
     modify (addMessage (tool_message toolCall text)))
    (report_error cfg onResult toolCall).

(** A callback that never throws; so does a callback that is absent. *)
Definition returns {A} (callback : option (Callback A)) : Prop :=
  match callback with
  | Some f => forall a w, (f a w).1 = Ok tt
  | None => True
  end.

Fixpoint executeToolCalls (cfg : Config) (toolCalls : list ToolCall)
    (onResult : option (Callback ToolCallResult)) : Step unit :=
  match toolCalls with
  | [] => ret tt
  | toolCall :: rest =>
      execute_call cfg onResult toolCall ;;; executeToolCalls cfg rest onResult
  end.

(** The message that a call leaves, from the outcome of the race: a tool
    message with the stringified result, or the error message. *)
Definition call_message (toolCall : ToolCall) (o : outcome value) : ChatMessage :=
  match bind o stringify_result with
  | Ok text => tool_message toolCall text
  | Throw error => error_message toolCall (exn_message error)
  end.

(** *** Rounds *)

(** The first loop of [processSegments]. *)
Definition collect (segments : list ExtractedSegment) : str * list ToolCall :=
  fold_left
    (fun acc segment =>
       match segment with
       | content data => (acc.1 ++ data, acc.2)
       | tool_call data => (acc.1, acc.2 ++ [data])
       | other => acc
       end)
    segments ([], []).

(** [assistantContent.trim()] as a condition *)
Definition non_blank (text : str) : bool :=
  match trim text with [] => false | _ :: _ => true end.

Definition processSegments (cfg : Config) (segments : list ExtractedSegment)
  : Step str :=
  let '(assistantContent, toolCalls) := collect segments in
  (if non_blank assistantContent
   then modify (addMessage (Message assistant (VStr assistantContent)))
   else ret tt) ;;;
  match toolCalls, mcpService cfg with
  | _ :: _, Some _ => executeToolCalls cfg toolCalls None
  | _, _ => ret tt
  end ;;;
  ret assistantContent.

(** [provider.completion] on the current history, and the extraction of
    the segments. *)
Definition complete (cfg : Config) : Step (list ExtractedSegment) :=
  fun s =>
    let '(r, w) := completion cfg (history s) (world s) in
    (r, {| history := history s; toolCallResults := toolCallResults s; world := w;
           invocations := invocations s; completions := S (completions s) |}).


(** [segments.some(s => s.type === 'tool_call')] *)
Definition hasToolCalls (segments : list ExtractedSegment) : bool :=
  existsb (fun s => match s with tool_call _ => true | _ => false end) segments.

(** [this.options.maxAgenticIterations || 5] *)
Definition iteration_cap (o : ChatSessionOptions) : Z :=
  match maxAgenticIterations o with
  | Some n => if (n =? 0)%Z then 5%Z else n
  | None => 5%Z
  end.

(** The [while] loop of [agenticChat], with [fuel] bounding the number of
    rounds; [None] when the fuel runs out first. *)
Fixpoint agentic_loop (fuel : nat) (cfg : Config) (iterations : Z) (s : Session)
  : option (outcome str * Session) :=
  if (iterations <? iteration_cap (options cfg))%Z then
    match fuel with
    | O => None
    | S fuel' =>
        match complete cfg s with
        | (Throw e, s') => Some (Throw e, s')
        | (Ok segments, s') =>
            match processSegments cfg segments s' with
            | (Throw e, s'') => Some (Throw e, s'')
            | (Ok result, s'') =>
                if negb (hasToolCalls segments)
                then Some (Ok result, s'')
                else agentic_loop fuel' cfg (iterations + 1)%Z s''
            end
        end
    end
  else Some (Ok [], s).

Definition agenticChat (cfg : Config) (s : Session) : option (outcome str * Session) :=
  agentic_loop (Z.to_nat (iteration_cap (options cfg))) cfg 0%Z s.


End WithWorld.
Arguments Callback W A : clear implicits.
Arguments ChatSessionOptions W : clear implicits.
Arguments Config W : clear implicits.
Arguments Session W : clear implicits.
Arguments Step W A : clear implicits.

Notation "x <- m ;; k" := (and_then m (fun x => k))
  (at level 20, m at level 99, k at level 200).
Notation "m ;;; k" := (and_then m (fun _ => k))
  (at level 100, k at level 200, right associativity).

End ChatSession.

(** ** Closed examples

    Concrete inputs for the examples and counterexamples below.  The world
    of the example tools counts the handler runs. *)

Definition tool_json : StreamingToolCallBuffer := new_buffer P_tool (Some F_json).

Definition auto_json : StreamingToolCallBuffer := new_buffer P_auto (Some F_json).

Definition bad_block : str := lit "<tool_call>oops</tool_call>".

Definition good_block : str := qlit "<tool_call>{'name':'x'}</tool_call>".

(** The three tokens of the specification's example. *)
Definition three_tokens : list str :=
  [lit "<to"; qlit "ol_call>{'name':'x','argum"; qlit "ents':{}}</tool_call>"].

Definition call_x : value :=
  VObj [(lit "name", VStr (lit "x")); (lit "arguments", VObj [])].

Module Example.

Definition echo : ToolDefinition nat :=
  {| name := lit "echo"; description := lit "returns its arguments";
     schema := fun args => Ok args;
     handler := fun args w => {| settled := Ok args; elapsed := 1; after := S w |} |}.

Definition broken : ToolDefinition nat :=
  {| name := lit "broken"; description := lit "always throws";
     schema := fun args => Ok args;
     handler := fun args w =>
       {| settled := Throw (new_Error "boom"); elapsed := 1; after := S w |} |}.

Definition service : MCPService nat :=
  {| tools := <[lit "echo" := echo]> (<[lit "broken" := broken]> ∅) |}.

Definition getTool : value -> option (ToolDefinition nat) := getTool_value service.

(** A decoded call [{id, name, arguments: {}}]. *)
Definition call (id name : string) : value :=
  VObj [(lit "id", VStr (lit id)); (lit "name", VStr (lit name));
        (lit "arguments", VObj [])].

Definition fresh : Legacy.State nat :=
  {| Legacy.history := []; Legacy.seenIds := []; Legacy.world := 0;
     Legacy.invocations := []; Legacy.warnings := [] |}.

Definition fresh_legacy_session : Legacy.Session nat :=
  {| Legacy.s_history := []; Legacy.lastToolCallResults := [];
     Legacy.s_world := 0; Legacy.s_invocations := [] |}.

Definition tool_call_a (name : string) : ChatSession.ToolCall :=
  {| ChatSession.tc_id := Some (lit "a"); ChatSession.tc_name := lit name;
     ChatSession.tc_arguments := VObj [] |}.

(** Options without callbacks. *)
Definition options (agentic : bool) (cap : option Z)
  : ChatSession.ChatSessionOptions nat :=
  {| ChatSession.toolCallTimeout := 30000; ChatSession.agenticMode := agentic;
     ChatSession.maxAgenticIterations := cap;
     ChatSession.onToolCall := None; ChatSession.onError := None |}.

(** A model that answers every request with the same segments. *)
Definition config (agentic : bool) (cap : option Z)
    (answer : list ChatSession.ExtractedSegment) : ChatSession.Config nat :=
  {| ChatSession.options := options agentic cap;
     ChatSession.mcpService := Some service;
     ChatSession.completion := fun _ w => (Ok answer, w) |}.

Definition fresh_session : ChatSession.Session nat :=
  {| ChatSession.history := []; ChatSession.toolCallResults := [];
     ChatSession.world := 0; ChatSession.invocations := [];
     ChatSession.completions := 0 |}.

End Example.

(** ** Notions used in the further properties *)

(** The text holds no character [c]. *)
Definition lacks (c : ascii) (s : str) : bool :=
  forallb (fun d => negb (Ascii.eqb d c)) s.

(** The bodies that decode, in the order of the matches. *)
Definition decoded `{Runtime} (f : Format) (inners : list str) : list value :=
  omap (fun inner =>
          match parseToolCallPayload inner f with
          | Ok parsed => Some parsed
          | Throw _ => None
          end) inners.

(** ** The rest of the tool registry (mcp/MCPService.ts) *)

Module Registry.

Section WithWorld.
Context {W : Type}.

(** [hasTool(name)] *)
Definition hasTool (svc : MCPService W) (n : str) : bool :=
  bool_decide (is_Some (tools svc !! n)).

(** [removeTool(name)]: what [Map.delete] returns, and the registry left. *)
Definition removeTool (n : str) (svc : MCPService W) : bool * MCPService W :=
  (hasTool svc n, {| tools := delete n (tools svc) |}).

(** [clear()] *)
Definition clear (svc : MCPService W) : MCPService W := {| tools := ∅ |}.

(** [size()] *)
Definition size (svc : MCPService W) : nat := base.size (tools svc).

End WithWorld.

End Registry.

(** ** Streaming extractor (extractor/streaming/StreamingExtractor.ts) *)

Module StreamingExtractor.

(** The [ToolCall] that [normalizeToolCall] builds; every field holds
    whatever value the decoded call had there. *)
Record ToolCall : Type := {
  id : value;
  name : value;
  arguments : value;
  type : value;
  format : value;
  raw : value
}.

(** A segment of [pushToken]; its metadata (the provider name and, for a
    call, the format and the raw call again) is left out. *)
Inductive ExtractedSegment : Type :=
| content (data : str)
| tool_call (data : ToolCall).

Record StreamingExtractor : Type := {
  buffer : StreamingToolCallBuffer;
  contentBuffer : str;
  lastVisibleIndex : nat
}.

(** The constructor, with the buffer options after the defaults
    [protocol: 'auto'] and [format: 'auto']. *)
Definition new_extractor (p : option Protocol) (f : option Format) : StreamingExtractor :=
  {| buffer := new_buffer (default P_auto p) (Some (default F_auto f));
     contentBuffer := []; lastVisibleIndex := 0 |}.

(** [v?.k] *)
Definition get_prop_opt (v : value) (k : string) : outcome value :=
  match v with
  | VUndefined | VNull => Ok VUndefined
  | _ => get_prop v k
  end.

(** [a || b], where [b] is evaluated only when [a] is falsy. *)
Definition or_lazy (a : outcome value) (b : outcome value) : outcome value :=
  bind a (fun v => if truthy v then Ok v else b).

(** [normalizeToolCall(rawToolCall)]; [now] is the text of [Date.now()]. *)
Definition normalizeToolCall (now : str) (rawToolCall : value) : outcome ToolCall :=
  bind (or_lazy (get_prop rawToolCall "id")
          (or_lazy (get_prop rawToolCall "tool_call_id")
             (Ok (VStr (lit "call_" ++ now))))) (fun i =>
  bind (or_lazy (get_prop rawToolCall "name")
          (bind (get_prop rawToolCall "function") (fun fn => get_prop_opt fn "name")))
    (fun n =>
  bind (or_lazy (get_prop rawToolCall "arguments")
          (or_lazy (bind (get_prop rawToolCall "function")
                      (fun fn => get_prop_opt fn "arguments"))
             (or_lazy (get_prop rawToolCall "parameters") (Ok (VObj [])))))
    (fun a =>
  bind (or_lazy (get_prop rawToolCall "type") (Ok (VStr (lit "function")))) (fun t =>
  bind (or_lazy (get_prop rawToolCall "format") (Ok (VStr (lit "json")))) (fun fm =>
  Ok {| id := i; name := n; arguments := a; type := t; format := fm;
        raw := rawToolCall |}))))).

(** The loop over the detected calls. *)
Fixpoint normalize_all (now : str) (toolCalls : list value)
  : outcome (list ExtractedSegment) :=
  match toolCalls with
  | [] => Ok []
  | toolCall :: rest =>
      bind (normalizeToolCall now toolCall) (fun c =>
      bind (normalize_all now rest) (fun cs => Ok (tool_call c :: cs)))
  end.

Section WithRuntime.
Context `{Runtime}.

(** [pushToken(token)]: the extractor afterwards and the segments
    returned, or what the normalization of a call threw. *)
Definition pushToken (now : str) (x : StreamingExtractor) (token : str)
  : StreamingExtractor * outcome (list ExtractedSegment) :=
  let '(b, detectedToolCalls) := push (buffer x) token in
  let visible := getVisibleContent b in
  let newContent := drop (lastVisibleIndex x) visible in
  let x' :=
    {| buffer := b; contentBuffer := visible;
       lastVisibleIndex :=
         match newContent with
         | [] => lastVisibleIndex x
         | _ :: _ => length visible
         end |} in
  let segments :=
    match newContent with
    | [] => []
    | _ :: _ => [content newContent]
    end in
  (x', bind (normalize_all now (default [] detectedToolCalls))
         (fun calls => Ok (segments ++ calls))).

(** [finalize()] *)
Definition finalize (now : str) (x : StreamingExtractor)
  : StreamingExtractor * outcome (list ExtractedSegment) :=
  pushToken now x [].

(** [reset()] *)
Definition reset (x : StreamingExtractor) : StreamingExtractor :=
  {| buffer := new_buffer (Buffer.protocol (buffer x)) (Some (Buffer.format (buffer x)));
     contentBuffer := []; lastVisibleIndex := 0 |}.

(** A stream of tokens pushed one after the other, as long as nothing
    throws: the segments of all pushes, in order. *)
Fixpoint pushTokens (now : str) (x : StreamingExtractor) (tokens : list str)
  : StreamingExtractor * outcome (list ExtractedSegment) :=
  match tokens with
  | [] => (x, Ok [])
  | token :: rest =>
      match pushToken now x token with
      | (x', Ok segments) =>
          let '(x'', r) := pushTokens now x' rest in
          (x'', bind r (fun more => Ok (segments ++ more)))
      | (x', Throw e) => (x', Throw e)
      end
  end.

End WithRuntime.

(** The text of the content segments. *)
Definition content_of (segments : list ExtractedSegment) : str :=
  concat (map (fun s => match s with content d => d | tool_call _ => [] end) segments).

Definition calls_of (segments : list ExtractedSegment) : list ToolCall :=
  omap (fun s => match s with tool_call c => Some c | content _ => None end) segments.

End StreamingExtractor.

(** ** The streaming side of the legacy session *)

Module LegacyStream.

Section WithWorld.
Context `{Runtime} {W : Type}.

(** [processParsedToolCall(toolCall, processedIds)]: the set of processed
    ids and the session afterwards. *)
Definition processParsedToolCall (getTool : value -> option (ToolDefinition W))
    (toolCall : value) (processedIds : list value) (s : Legacy.Session W)
  : outcome (list value * Legacy.Session W) :=
  bind (Legacy.callId_of toolCall) (fun callId =>
    if truthy callId && set_has processedIds callId
    then Ok (processedIds, s)
    else
      Ok (if truthy callId then set_add processedIds callId else processedIds,
          Legacy.chat_tool_call getTool callId toolCall s)).

(** The [while (working.length > 0)] loop of [extractSegments]; [None] when
    the fuel runs out first. *)
Fixpoint extract_loop (fuel : nat) (b : StreamingToolCallBuffer) (working : str)
    (segments : list Legacy.Segment) : option (list Legacy.Segment) :=
  match working with
  | [] => Some segments
  | _ :: _ =>
      match fuel with
      | O => None
      | S fuel' =>
          let before := getVisibleContent b in
          match before with
          | _ :: _ =>
              let working' := drop (length before) working in
              let b' := (push b (take 1 working')).1 in
              extract_loop fuel' b' working'
                (segments ++ [Legacy.content_segment before])
          | [] =>
              match push b working with
              | (b', Some (c :: cs)) =>
                  extract_loop fuel' b' (getVisibleContent b')
                    (segments ++ map Legacy.tool_call_segment (c :: cs))
              | (_, _) => Some (segments ++ [Legacy.content_segment working])
              end
          end
      end
  end.

(** [extractSegments(text, protocol, format)] *)
Definition extractSegments (text : str) (p : Protocol) (f : Format)
  : option (list Legacy.Segment) :=
  extract_loop (2 + length text) (new_buffer p (Some f)) text [].

End WithWorld.

(** The text of the assistant messages of a history. *)
Definition assistant_text (msgs : list ChatMessage) : str :=
  concat (map (fun m => match m with
                        | Message assistant (VStr t) => t
                        | _ => []
                        end) msgs).

End LegacyStream.

(** ** The end of [ChatSession.stream] *)

Module Stream.
Import ChatSession.

Section WithWorld.
Context `{Runtime} {W : Type}.


End WithWorld.

End Stream.

(** The registry of the examples with one more tool, whose schema accepts
    nothing. *)
Definition strict : ToolDefinition nat :=
  {| Chat.name := lit "strict"; description := lit "rejects every argument";
     schema := fun _ => Throw (ZodError [lit "Required"]);
     handler := fun args w => {| settled := Ok args; elapsed := 1; after := S w |} |}.

(** A tool that needs a minute. *)
Definition slow : ToolDefinition nat :=
  {| Chat.name := lit "slow"; description := lit "takes a minute";
     schema := fun args => Ok args;
     handler := fun args w => {| settled := Ok args; elapsed := 60000; after := S w |} |}.

Module Example2.

(** The registry of [Example] with [strict] and [slow] besides. *)
Definition service : MCPService nat :=
  {| tools := <[lit "slow" := slow]> (<[lit "strict" := strict]> (tools Example.service)) |}.

Definition config : ChatSession.Config nat :=
  {| ChatSession.options := Example.options false None;
     ChatSession.mcpService := Some service;
     ChatSession.completion := fun _ w => (Ok [], w) |}.


(** Decoded calls without an id and without a name. *)
Definition anonymous : value := VObj [(lit "name", VStr (lit "echo"))].
Definition nameless : value := VObj [(lit "id", VStr (lit "a"))].



(** An [onError] callback that throws what it is told. *)
Definition rethrow : ChatSession.Callback nat exn := fun error w => (Throw error, w).

(** [Example.config] in agentic mode, with that callback. *)
Definition touchy (cap : option Z) (answer : list ChatSession.ExtractedSegment)
  : ChatSession.Config nat :=
  {| ChatSession.options :=
       {| ChatSession.toolCallTimeout := 30000; ChatSession.agenticMode := true;
          ChatSession.maxAgenticIterations := cap;
          ChatSession.onToolCall := None; ChatSession.onError := Some rethrow |};
     ChatSession.mcpService := Some Example.service;
     ChatSession.completion := fun _ w => (Ok answer, w) |}.

(** A decoded call whose id is the empty string. *)
Definition call_with_empty_id (name : string) : value :=
  VObj [(lit "id", VStr []); (lit "name", VStr (lit name));
        (lit "arguments", VObj [])].

Definition plain_chunks : list str := [lit "Hel"; lit "lo <b>wor"; []; lit "ld</b>"].

Definition weather_xml : str :=
  lit "<name> get_weather </name><arguments>{}</arguments>".

End Example2.

(** * Properties *)

(** ** Scanning lemmas *)

Section TextFacts.

Lemma starts_with_split (p s : str) :
  starts_with p s = true -> s = p ++ drop (length p) s.
Proof.
  revert s; induction p as [|a p IH]; intros [|b s]; simpl; try done.
  destruct (Ascii.eqb_spec a b) as [->|]; [|done].
  intros Hs. f_equal. by apply IH.
Qed.

Lemma starts_with_prefix (p t : str) : starts_with p (p ++ t) = true.
Proof.
  induction p as [|a p IH]; simpl; [done|]. by rewrite Ascii.eqb_refl.
Qed.

Lemma starts_with_length (p s : str) :
  starts_with p s = true -> length p <= length s.
Proof.
  intros Hs. rewrite (starts_with_split _ _ Hs), length_app. lia.
Qed.

Lemma starts_with_app (p s q : str) :
  starts_with p s = true -> starts_with p (s ++ q) = true.
Proof.
  intros Hs. rewrite (starts_with_split _ _ Hs), <- app_assoc.
  apply starts_with_prefix.
Qed.

(** Text appended behind a long enough string does not change what its
    head matches. *)
Lemma starts_with_app_long (p s q : str) :
  length p <= length s -> starts_with p (s ++ q) = starts_with p s.
Proof.
  revert s; induction p as [|a p IH]; intros [|b s]; simpl; try done; try lia.
  intros Hl. destruct (Ascii.eqb a b); [|done]. apply IH. lia.
Qed.

Lemma split_at_first_sound (p s a b : str) :
  split_at_first p s = Some (a, b) -> s = a ++ p ++ b.
Proof.
  revert a; induction s as [|c s IH]; intros a; simpl.
  - destruct (starts_with p []) eqn:Hp; [|done].
    intros [= <- <-]. apply (starts_with_split _ _ Hp).
  - destruct (starts_with p (c :: s)) eqn:Hp.
    + intros [= <- <-]. apply (starts_with_split _ _ Hp).
    + destruct (split_at_first p s) as [[a' b']|] eqn:Hs; [|done].
      intros [= <- <-]. simpl. f_equal. by apply IH.
Qed.

Lemma split_at_first_complete (p s a b : str) :
  s = a ++ p ++ b -> is_Some (split_at_first p s).
Proof.
  revert s; induction a as [|c a IH]; intros s ->.
  - destruct (p ++ b) eqn:E; simpl; rewrite <- ?E, starts_with_prefix; eauto.
  - simpl. destruct (starts_with p (c :: a ++ p ++ b)); [eauto|].
    destruct (IH (a ++ p ++ b) eq_refl) as [[a' b'] ->]. eauto.
Qed.

(** The first occurrence of a literal stays the first one when text is
    appended. *)
Lemma split_at_first_app (p s q a b : str) :
  split_at_first p s = Some (a, b) ->
  split_at_first p (s ++ q) = Some (a, b ++ q).
Proof.
  revert a; induction s as [|c s IH]; intros a.
  - simpl. destruct (starts_with p []) eqn:Hp; [|done].
    intros [= <- <-]. destruct p; [|done]. simpl.
    destruct q; simpl; by rewrite ?drop_0.
  - simpl. destruct (starts_with p (c :: s)) eqn:Hp.
    + intros [= <- <-].
      change (c :: s ++ q) with ((c :: s) ++ q).
      rewrite (starts_with_app _ _ q Hp).
      rewrite drop_app_le by (by apply starts_with_length). done.
    + destruct (split_at_first p s) as [[a' b']|] eqn:Hs; [|done].
      intros [= <- <-].
      change (c :: s ++ q) with ((c :: s) ++ q).
      rewrite starts_with_app_long, Hp.
      * by rewrite (IH a' eq_refl).
      * apply split_at_first_sound in Hs. subst s. simpl.
        rewrite !length_app. lia.
Qed.

Lemma exec_block_sound (op cl s pre inner rest : str) :
  exec_block op cl s = Some (pre, inner, rest) ->
  s = pre ++ op ++ inner ++ cl ++ rest.
Proof.
  revert pre; induction s as [|c s IH]; intros pre; simpl.
  - destruct (starts_with op []) eqn:Hop; [|done].
    destruct (split_at_first cl (drop (length op) [])) as [[i r]|] eqn:Hs; [|done].
    intros [= <- <- <-]. simpl.
    rewrite (starts_with_split _ _ Hop) at 1. f_equal.
    by apply split_at_first_sound.
  - destruct (if starts_with op (c :: s)
              then split_at_first cl (drop (length op) (c :: s)) else None)
      as [[i r]|] eqn:Hhere.
    + intros [= <- <- <-]. simpl.
      destruct (starts_with op (c :: s)) eqn:Hop; [|done].
      rewrite (starts_with_split _ _ Hop) at 1. f_equal.
      by apply split_at_first_sound.
    + destruct (exec_block op cl s) as [[[pre' i] r]|] eqn:Hs; [|done].
      intros [= <- <- <-]. simpl. f_equal. by apply IH.
Qed.

(** A match of a block pattern is kept, at the same place, when text is
    appended to the subject. *)
Lemma exec_block_app (op cl s q pre inner rest : str) :
  exec_block op cl s = Some (pre, inner, rest) ->
  exec_block op cl (s ++ q) = Some (pre, inner, rest ++ q).
Proof.
  revert pre; induction s as [|c s IH]; intros pre.
  - destruct op as [|o op]; [|done]. destruct cl as [|l cl]; [|done].
    simpl. intros [= <- <- <-]. by destruct q.
  - simpl exec_block at 1.
    destruct (if starts_with op (c :: s)
              then split_at_first cl (drop (length op) (c :: s)) else None)
      as [[i r]|] eqn:Hhere.
    + intros [= <- <- <-].
      destruct (starts_with op (c :: s)) eqn:Hop; [|done].
      change ((c :: s) ++ q) with (c :: s ++ q). simpl.
      change (c :: s ++ q) with ((c :: s) ++ q).
      rewrite (starts_with_app _ _ q Hop).
      rewrite drop_app_le by (by apply starts_with_length).
      by rewrite (split_at_first_app _ _ q _ _ Hhere).
    + destruct (exec_block op cl s) as [[[pre' i] r]|] eqn:Hs; [|done].
      intros [= <- <- <-].
      pose proof (exec_block_sound _ _ _ _ _ _ Hs) as Hshape.
      assert (Hlen : length op <= length (c :: s)).
      { subst s. simpl. rewrite !length_app. lia. }
      change ((c :: s) ++ q) with (c :: s ++ q). simpl.
      change (c :: s ++ q) with ((c :: s) ++ q).
      rewrite (starts_with_app_long _ _ q Hlen).
      rewrite drop_app_le by done.
      destruct (starts_with op (c :: s)) eqn:Hop.
      * exfalso.
        assert (Hsome : is_Some (split_at_first cl (drop (length op) (c :: s)))).
        { apply (split_at_first_complete cl _
                   (drop (length op) (c :: pre' ++ op ++ i)) r).
          rewrite Hshape.
          replace (c :: pre' ++ op ++ i ++ cl ++ r)
            with ((c :: pre' ++ op ++ i) ++ cl ++ r)
            by (simpl; by rewrite <- !app_assoc).
          rewrite drop_app_le; [done|]. simpl. rewrite !length_app. lia. }
        rewrite Hhere in Hsome. by destruct Hsome.
      * by rewrite (IH pre' eq_refl).
Qed.

(** A match of a pattern with a non-empty open tag leaves less text to
    scan, so the fuel of the global scans never runs out: any fuel from
    [length s] on gives what [exec_all] and [remove_blocks] give. *)
Lemma exec_block_shrinks (op cl s pre inner rest : str) :
  op <> [] -> exec_block op cl s = Some (pre, inner, rest) ->
  length rest < length s.
Proof.
  intros Hop Hs. rewrite (exec_block_sound _ _ _ _ _ _ Hs), !length_app.
  destruct op; [done|simpl; lia].
Qed.

Lemma exec_all_fuel_enough (op cl : str) (fuel1 : nat) :
  op <> [] ->
  forall (fuel2 : nat) (s : str),
  length s <= fuel1 -> length s <= fuel2 ->
  exec_all_fuel fuel1 op cl s = exec_all_fuel fuel2 op cl s.
Proof.
  intros Hop. induction fuel1 as [|fuel1 IH]; intros fuel2 s H1 H2.
  - destruct s; [|simpl in H1; lia]. destruct fuel2; [done|].
    simpl. by destruct op.
  - destruct fuel2 as [|fuel2].
    + destruct s; [|simpl in H2; lia]. simpl. by destruct op.
    + simpl. destruct (exec_block op cl s) as [[[pre inner] rest]|] eqn:Hs; [|done].
      pose proof (exec_block_shrinks _ _ _ _ _ _ Hop Hs).
      f_equal. apply IH; lia.
Qed.

Lemma remove_blocks_fuel_enough (op cl : str) (fuel1 : nat) :
  op <> [] ->
  forall (fuel2 : nat) (s : str),
  length s <= fuel1 -> length s <= fuel2 ->
  remove_blocks_fuel fuel1 op cl s = remove_blocks_fuel fuel2 op cl s.
Proof.
  intros Hop. induction fuel1 as [|fuel1 IH]; intros fuel2 s H1 H2.
  - destruct s; [|simpl in H1; lia]. destruct fuel2; [done|].
    simpl. by destruct op.
  - destruct fuel2 as [|fuel2].
    + destruct s; [|simpl in H2; lia]. simpl. by destruct op.
    + simpl. destruct (exec_block op cl s) as [[[pre inner] rest]|] eqn:Hs; [|done].
      pose proof (exec_block_shrinks _ _ _ _ _ _ Hop Hs).
      f_equal. apply IH; lia.
Qed.

Lemma exec_block_starts (op cl s pre inner rest : str) :
  exec_block op cl s = Some (pre, inner, rest) ->
  starts_with op (drop (length pre) s) = true.
Proof.
  intros Hs. rewrite (exec_block_sound _ _ _ _ _ _ Hs).
  rewrite drop_app_length. apply starts_with_prefix.
Qed.

Lemma find_any_None (tags : list str) (s : str) (i : nat) (t : str) :
  find_any tags s = None -> In t tags -> starts_with t (drop i s) = false.
Proof.
  revert i; induction s as [|c s IH]; intros i; simpl.
  - destruct (existsb (fun t => starts_with t []) tags) eqn:He; [done|].
    intros _ Ht. rewrite drop_nil.
    destruct (starts_with t []) eqn:Hs; [|done].
    assert (existsb (fun t => starts_with t []) tags = true)
      by (apply existsb_exists; eauto). congruence.
  - destruct (existsb (fun t => starts_with t (c :: s)) tags) eqn:He; [done|].
    destruct (find_any tags s) eqn:Hf; [done|]. intros _ Ht.
    destruct i as [|i]; simpl.
    + destruct (starts_with t (c :: s)) eqn:Hs; [|done].
      assert (existsb (fun t => starts_with t (c :: s)) tags = true)
        by (apply existsb_exists; eauto). congruence.
    + by apply IH.
Qed.

Lemma find_any_bound (tags : list str) (s : str) (i : nat) :
  find_any tags s = Some i -> i <= length s.
Proof.
  revert i; induction s as [|c s IH]; intros i; simpl.
  - destruct (existsb _ tags); [|done]. intros [= <-]. lia.
  - destruct (existsb _ tags); [intros [= <-]; lia|].
    destruct (find_any tags s) as [j|]; [|done].
    intros [= <-]. specialize (IH j eq_refl). lia.
Qed.

Lemma find_any_hit (tags : list str) (s : str) (i : nat) :
  find_any tags s = Some i ->
  exists t, In t tags /\ starts_with t (drop i s) = true.
Proof.
  revert i; induction s as [|c s IH]; intros i; simpl.
  - destruct (existsb _ tags) eqn:He; [|done]. intros [= <-].
    apply existsb_exists in He. done.
  - destruct (existsb _ tags) eqn:He.
    + intros [= <-]. apply existsb_exists in He. done.
    + destruct (find_any tags s) as [j|]; [|done].
      intros [= <-]. by apply IH.
Qed.

Lemma tags_like_In (tags : list str) (t : str) :
  tags_like tags = true -> In t tags -> tag_like t = true.
Proof. unfold tags_like. rewrite forallb_forall. auto. Qed.

(** A marker that matches across the end of [a] has, at that place, the
    first character of what follows. *)
Lemma starts_with_straddle (t a b : str) :
  starts_with t (a ++ b) = true -> length a < length t ->
  exists c, head b = Some c /\ t !! length a = Some c.
Proof.
  revert t; induction a as [|x a IH]; intros [|y t]; simpl; try lia.
  - destruct b as [|c b]; [done|]. destruct (Ascii.eqb_spec y c) as [->|]; [|done].
    intros _ _. by exists c.
  - destruct (Ascii.eqb y x); [|done]. intros Hs Hl. apply IH; [done|lia].
Qed.

Lemma tag_like_inner (t : str) (k : nat) :
  tag_like t = true -> 1 <= k -> t !! k <> Some "<"%char.
Proof.
  destruct t as [|c t]; [done|]. simpl. intros [_ Hall]%andb_prop Hk Hlt.
  destruct k as [|k]; [lia|]. simpl in Hlt.
  rewrite forallb_forall in Hall.
  apply list_elem_of_lookup_2, list_elem_of_In, Hall in Hlt. done.
Qed.

(** A marker cannot match across the end of a non-empty text into a text
    that begins with [<]. *)
Lemma tag_like_no_straddle (t a b : str) :
  tag_like t = true -> a <> [] -> head b = Some "<"%char ->
  starts_with t (a ++ b) = starts_with t a.
Proof.
  intros Ht Ha Hb.
  destruct (decide (length t <= length a)) as [Hl|Hl].
  { by apply starts_with_app_long. }
  destruct (starts_with t (a ++ b)) eqn:Hs.
  - exfalso. destruct (starts_with_straddle _ _ _ Hs) as (c & Hc & Hk); [lia|].
    rewrite Hb in Hc. injection Hc as <-.
    apply (tag_like_inner t (length a)); [done| |done].
    destruct a; [done|simpl; lia].
  - destruct (starts_with t a) eqn:Hs'; [|done].
    apply starts_with_length in Hs'. lia.
Qed.

(** No marker lies inside another one behind its first character. *)
Lemma tag_like_unnested (t t' : str) (k : nat) :
  tag_like t = true -> tag_like t' = true -> 1 <= k ->
  starts_with t' (drop k t) = false.
Proof.
  intros Ht Ht' Hk.
  destruct (starts_with t' (drop k t)) eqn:Hs; [|done]. exfalso.
  destruct t' as [|c t']; [done|]. simpl in Ht'.
  apply andb_prop in Ht' as [Hc _]. apply Ascii.eqb_eq in Hc as ->.
  apply starts_with_split in Hs.
  apply (tag_like_inner t k Ht Hk).
  rewrite <- (Nat.add_0_r k), <- lookup_drop, Hs. done.
Qed.

(** The first open tag stays the first one when text is appended. *)
Lemma find_any_app (tags : list str) (s q : str) (i : nat) :
  tags_like tags = true ->
  find_any tags s = Some i -> find_any tags (s ++ q) = Some i.
Proof.
  intros Hlike. revert i; induction s as [|c s IH]; intros i.
  - simpl. destruct (existsb (fun t => starts_with t []) tags) eqn:He; [|done].
    intros [= <-]. apply existsb_exists in He as (t & Ht & Hs).
    assert (Hq : existsb (fun t => starts_with t q) tags = true).
    { apply existsb_exists. exists t. split; [done|].
      by apply (starts_with_app t [] q). }
    destruct q; simpl in *; by rewrite Hq.
  - simpl. destruct (existsb (fun t => starts_with t (c :: s)) tags) eqn:He.
    + intros [= <-]. apply existsb_exists in He as (t & Ht & Hs).
      assert (Hq : existsb (fun t => starts_with t (c :: s ++ q)) tags = true).
      { apply existsb_exists. exists t. split; [done|].
        by apply (starts_with_app t (c :: s) q). }
      by rewrite Hq.
    + destruct (find_any tags s) as [j|] eqn:Hf; [|done]. intros [= <-].
      destruct (existsb (fun t => starts_with t (c :: s ++ q)) tags) eqn:Hq.
      * exfalso. apply existsb_exists in Hq as (t & Ht & Hs).
        destruct (find_any_hit _ _ _ Hf) as (t' & Ht' & Hs').
        change (c :: s ++ q) with ((c :: s) ++ q) in Hs.
        destruct (decide (length t <= length (c :: s))) as [Hl|Hl].
        { rewrite starts_with_app_long in Hs by done.
          assert (existsb (fun t => starts_with t (c :: s)) tags = true)
            by (apply existsb_exists; eauto). congruence. }
        (* the tag [t] reaches into [q], so [t'] lies inside [t] *)
        pose proof (starts_with_length _ _ Hs') as Hl'.
        rewrite length_drop in Hl'.
        pose proof (find_any_bound _ _ _ Hf) as Hj.
        assert (Hin : starts_with t' (drop (S j) t) = true).
        { apply starts_with_split in Hs.
          apply (starts_with_app _ _ q) in Hs'.
          rewrite <- (starts_with_app_long t' (drop (S j) t)
                        (drop (length t) ((c :: s) ++ q)))
            by (rewrite length_drop; simpl in *; lia).
          rewrite <- drop_app_le by (simpl in *; lia).
          rewrite <- Hs. simpl. rewrite drop_app_le by lia. done. }
        rewrite (tag_like_unnested t t' (S j)) in Hin;
          [done|by apply (tags_like_In tags)..|lia].
      * by rewrite (IH j eq_refl).
Qed.

(** The text before the first open tag holds no open tag. *)
Lemma find_any_take (tags : list str) (s : str) (i : nat) :
  Forall (fun t => t <> []) tags ->
  find_any tags s = Some i -> find_any tags (take i s) = None.
Proof.
  intros Hne. revert i; induction s as [|c s IH]; intros i; simpl.
  - destruct (existsb _ tags) eqn:He; [|done].
    apply existsb_exists in He as (t & Ht & Hs).
    rewrite List.Forall_forall in Hne. specialize (Hne t Ht). by destruct t.
  - destruct (existsb (fun t => starts_with t (c :: s)) tags) eqn:He.
    + intros [= <-]. simpl.
      destruct (existsb (fun t => starts_with t []) tags) eqn:He'; [|done].
      apply existsb_exists in He' as (t & Ht & Hs).
      rewrite List.Forall_forall in Hne. specialize (Hne t Ht). by destruct t.
    + destruct (find_any tags s) as [j|] eqn:Hf; [|done]. intros [= <-].
      simpl.
      destruct (existsb (fun t => starts_with t (c :: take j s)) tags) eqn:He'.
      * exfalso. apply existsb_exists in He' as (t & Ht & Hs).
        apply (starts_with_app _ _ (drop j s)) in Hs.
        simpl in Hs. rewrite take_drop in Hs.
        assert (existsb (fun t => starts_with t (c :: s)) tags = true)
          by (apply existsb_exists; eauto). congruence.
      * by rewrite (IH j eq_refl).
Qed.

(** Text without [<] in front of [s] brings no marker. *)
Lemma find_any_skip (tags : list str) (u s : str) :
  tags_like tags = true ->
  forallb (fun c => negb (Ascii.eqb c "<")) u = true ->
  find_any tags s = None -> find_any tags (u ++ s) = None.
Proof.
  intros Hlike Hu Hs. induction u as [|c u IH]; [done|].
  simpl in Hu. apply andb_prop in Hu as [Hc Hu]. simpl.
  rewrite (IH Hu).
  destruct (existsb (fun t => starts_with t (c :: u ++ s)) tags) eqn:He; [|done].
  exfalso. apply existsb_exists in He as (t & Ht & Hm).
  pose proof (tags_like_In _ _ Hlike Ht) as Htag.
  destruct t as [|d t]; [done|]. simpl in Htag, Hm.
  apply andb_prop in Htag as [Hd _]. apply Ascii.eqb_eq in Hd as ->.
  destruct (Ascii.eqb_spec "<" c) as [<-|]; [|done]. done.
Qed.

(** A text that begins with [<] and is put behind the payload brings no
    marker that starts in the payload. *)
Lemma find_any_before (tags : list str) (payload v : str) :
  tags_like tags = true -> head v = Some "<"%char ->
  find_any tags payload = None -> find_any tags v = None ->
  find_any tags (payload ++ v) = None.
Proof.
  intros Hlike Hv Hp Hnone. induction payload as [|c payload IH]; [done|].
  simpl in Hp.
  destruct (existsb (fun t => starts_with t (c :: payload)) tags) eqn:He; [done|].
  destruct (find_any tags payload) eqn:Hf; [done|].
  simpl. rewrite (IH eq_refl).
  destruct (existsb (fun t => starts_with t (c :: payload ++ v)) tags) eqn:He'; [|done].
  exfalso. apply existsb_exists in He' as (t & Ht & Hm).
  change (c :: payload ++ v) with ((c :: payload) ++ v) in Hm.
  rewrite tag_like_no_straddle in Hm; [|by apply (tags_like_In tags)|done..].
  assert (existsb (fun t => starts_with t (c :: payload)) tags = true)
    by (apply existsb_exists; eauto). congruence.
Qed.

(** The close tag behind a payload that holds none is the first one. *)
Lemma split_at_first_end (cl payload : str) :
  tag_like cl = true -> split_at_first cl payload = None ->
  split_at_first cl (payload ++ cl) = Some (payload, []).
Proof.
  intros Hcl Hp. induction payload as [|c payload IH].
  - simpl. assert (Hs : starts_with cl cl = true).
    { rewrite <- (app_nil_r cl) at 2. apply starts_with_prefix. }
    destruct cl as [|d cl]; [done|].
    cbn [split_at_first]. rewrite Hs. by rewrite drop_all.
  - simpl in Hp. destruct (starts_with cl (c :: payload)) eqn:Hs; [done|].
    destruct (split_at_first cl payload) as [[a b]|] eqn:Hsp; [done|].
    simpl. change (c :: payload ++ cl) with ((c :: payload) ++ cl).
    rewrite tag_like_no_straddle, Hs; [|done|done|by destruct cl as [|d cl];
      [|simpl in Hcl; apply andb_prop in Hcl as [->%Ascii.eqb_eq _]]].
    by rewrite (IH eq_refl).
Qed.

End TextFacts.

(** ** The dialect buffer *)

Section BufferFacts.
Context `{Runtime}.

Lemma exec_block_here (op cl s inner rest : str) :
  starts_with op s = true ->
  split_at_first cl (drop (length op) s) = Some (inner, rest) ->
  exec_block op cl s = Some ([], inner, rest).
Proof. intros Hop Hs. destruct s; simpl in *; by rewrite Hop, Hs. Qed.

Lemma exec_all_none (op cl s : str) :
  exec_block op cl s = None -> exec_all op cl s = [].
Proof. unfold exec_all. intros Hs. destruct (length s); simpl; by rewrite ?Hs. Qed.

Lemma remove_blocks_none (op cl s : str) :
  exec_block op cl s = None -> remove_blocks op cl s = s.
Proof. unfold remove_blocks. intros Hs. destruct (length s); simpl; by rewrite ?Hs. Qed.

Lemma exec_block_nil (op cl : str) : op <> [] -> exec_block op cl [] = None.
Proof. by destruct op. Qed.

Lemma exec_all_single (op cl s pre inner : str) :
  op <> [] -> exec_block op cl s = Some (pre, inner, []) ->
  exec_all op cl s = [inner].
Proof.
  intros Hop Hs. unfold exec_all. destruct s as [|c s].
  - by rewrite exec_block_nil in Hs.
  - cbn [length exec_all_fuel]. rewrite Hs.
    destruct (length s); cbn [exec_all_fuel]; [done|].
    by rewrite exec_block_nil.
Qed.

Lemma remove_blocks_single (op cl s pre inner : str) :
  op <> [] -> exec_block op cl s = Some (pre, inner, []) ->
  remove_blocks op cl s = pre.
Proof.
  intros Hop Hs. unfold remove_blocks. destruct s as [|c s].
  - by rewrite exec_block_nil in Hs.
  - cbn [length remove_blocks_fuel]. rewrite Hs.
    destruct (length s); cbn [remove_blocks_fuel];
      rewrite ?exec_block_nil by done; by rewrite app_nil_r.
Qed.

(** [found] is set exactly when a call has been collected. *)
Lemma scan_patterns_found (f : Format) (pats : list (str * str)) (buf : str) :
  (scan_patterns f pats buf).2 = true <-> (scan_patterns f pats buf).1 <> [].
Proof.
  unfold scan_patterns.
  assert (Hinner : forall inners (acc : list value * bool),
             (acc.2 = true <-> acc.1 <> []) ->
             (fold_left (scan_match f) inners acc).2 = true
             <-> (fold_left (scan_match f) inners acc).1 <> []).
  { induction inners as [|i inners IH]; intros acc Hacc; simpl; [done|].
    apply IH. unfold scan_match.
    destruct (parseToolCallPayload i f); simpl; [|done].
    split; [|done]. intros _. by destruct (acc.1). }
  assert (Houter : forall ps (acc : list value * bool),
             (acc.2 = true <-> acc.1 <> []) ->
             (fold_left (fun acc pat =>
                fold_left (scan_match f) (exec_all pat.1 pat.2 buf) acc) ps acc).2
               = true
             <-> (fold_left (fun acc pat =>
                fold_left (scan_match f) (exec_all pat.1 pat.2 buf) acc) ps acc).1
               <> []).
  { induction ps as [|pat ps IH]; intros acc Hacc; simpl; [done|].
    apply IH. by apply Hinner. }
  apply Houter. simpl. split; done.
Qed.

(** A push that reports nothing leaves the appended text in the buffer. *)
Lemma push_None (b : StreamingToolCallBuffer) (chunk : str) :
  (push b chunk).2 = None -> buffer (push b chunk).1 = buffer b ++ chunk.
Proof.
  unfold push.
  pose proof (scan_patterns_found (format b) (patterns (protocol b))
                (buffer b ++ chunk)) as Hfound.
  destruct (scan_patterns (format b) (patterns (protocol b)) (buffer b ++ chunk))
    as [toolCalls found]. simpl in Hfound.
  destruct found; simpl; [|done].
  destruct toolCalls as [|c cs]; simpl; [|done].
  exfalso. by apply Hfound.
Qed.

(** Where no active pattern matches, a push only appends. *)
Lemma scan_patterns_quiet (f : Format) (pats : list (str * str)) (buf : str) :
  (forall pat, In pat pats -> exec_block pat.1 pat.2 buf = None) ->
  scan_patterns f pats buf = ([], false).
Proof.
  unfold scan_patterns. generalize (@nil value, false).
  induction pats as [|pat pats IH]; intros acc Hnone; simpl; [done|].
  rewrite exec_all_none by (apply Hnone; by left). simpl.
  apply IH. intros pat' Hin. apply Hnone. by right.
Qed.

Lemma getVisibleContent_prefix (b : StreamingToolCallBuffer) :
  getVisibleContent b `prefix_of` buffer b.
Proof.
  unfold getVisibleContent. destruct (find_any open_tags (buffer b)) as [i|].
  - exists (drop i (buffer b)). by rewrite take_drop.
  - done.
Qed.

Lemma open_tags_nonempty : Forall (fun t : str => t <> []) open_tags.
Proof. repeat constructor; done. Qed.

Lemma open_tags_like : tags_like open_tags = true.
Proof. by vm_compute. Qed.

Lemma getVisibleContent_tagless (b : StreamingToolCallBuffer) :
  find_any open_tags (getVisibleContent b) = None.
Proof.
  unfold getVisibleContent.
  destruct (find_any open_tags (buffer b)) as [i|] eqn:Hf; [|done].
  apply find_any_take; [apply open_tags_nonempty|done].
Qed.

End BufferFacts.

Section VisibleContent.
Context `{Runtime}.

Lemma tagless_no_occurrence (tags : list str) (s t : str) :
  find_any tags s = None -> In t tags -> ~ occurs t s.
Proof.
  intros Hnone Ht (a & b & ->).
  pose proof (find_any_None tags _ (length a) t Hnone Ht) as Hs.
  rewrite drop_app_length, starts_with_prefix in Hs. done.
Qed.

(** C1 (amended).  [getVisibleContent()] is the raw buffer up to the first
    complete open tag: after every push, what the buffer holds behind the
    visible content is nothing or begins with an open tag, no complete
    open tag of any dialect occurs in the visible content, and the visible
    content is the whole buffer when the buffer holds no complete open
    tag.  (The characters of an open tag that has arrived in part are
    visible.)  The length of the visible content does not decrease across
    a push that reports no call, provided the buffer already held a
    complete open tag before the push or holds none after it. *)
Theorem visible_content_stops_at_first_open_tag
    (b : StreamingToolCallBuffer) (chunk : str) :
  let b' := (push b chunk).1 in
  (exists hidden,
     buffer b' = getVisibleContent b' ++ hidden
     /\ (hidden = [] \/ exists t, In t open_tags /\ starts_with t hidden = true))
  /\ (forall t, In t open_tags -> ~ occurs t (getVisibleContent b'))
  /\ (find_any open_tags (buffer b') = None -> getVisibleContent b' = buffer b')
  /\ ((push b chunk).2 = None ->
      find_any open_tags (buffer b) <> None
      \/ find_any open_tags (buffer b ++ chunk) = None ->
      length (getVisibleContent b) <= length (getVisibleContent b')).
Proof.
  intros b'. split.
  { unfold getVisibleContent.
    destruct (find_any open_tags (buffer b')) as [i|] eqn:Hf.
    - exists (drop i (buffer b')). rewrite take_drop. split; [done|].
      right. by apply find_any_hit.
    - exists []. rewrite app_nil_r. auto. }
  split.
  { intros t Ht. apply (tagless_no_occurrence open_tags); [|done].
    apply getVisibleContent_tagless. }
  split.
  { unfold getVisibleContent. by intros ->. }
  intros Hnone Hcase. subst b'. unfold getVisibleContent.
  rewrite (push_None _ _ Hnone).
  destruct Hcase as [Hopen|Hclean].
  - destruct (find_any open_tags (buffer b)) as [i|] eqn:Hf; [|done].
    rewrite (find_any_app _ _ chunk _ open_tags_like Hf).
    pose proof (find_any_bound _ _ _ Hf).
    rewrite take_app_le by done. done.
  - rewrite Hclean, length_app.
    destruct (find_any open_tags (buffer b)); rewrite ?length_take; lia.
Qed.

End VisibleContent.

(** C1, as stated, fails: once ["abc<to"] is pushed the visible content
    shows the first characters of an open tag, and it shrinks when the next
    push completes the tag. *)
Lemma visible_content_shrinks :
  let b1 := (@push Reference.runtime tool_json (lit "abc<to")).1 in
  let b2 := (@push Reference.runtime b1 (lit "ol_call>")).1 in
  getVisibleContent b1 = lit "abc<to"
  /\ getVisibleContent b2 = lit "abc"
  /\ ~ (length (getVisibleContent b1) <= length (getVisibleContent b2)).
Proof. vm_compute. split; [done|]. split; [done|]. lia. Qed.

Lemma visible_content_stops_at_first_open_tag_witness :
  let b := (@push Reference.runtime tool_json (lit "Hi <tool_call>{")).1 in
  (@push Reference.runtime b (qlit "'name'")).2 = None
  /\ find_any open_tags (buffer b) <> None
  /\ length (getVisibleContent b)
     <= length (getVisibleContent (@push Reference.runtime b (qlit "'name'")).1).
Proof.
  intros b.
  assert (Hnone : (@push Reference.runtime b (qlit "'name'")).2 = None)
    by (by vm_compute).
  assert (Hopen : find_any open_tags (buffer b) <> None) by (by vm_compute).
  split; [done|]. split; [done|].
  apply (@visible_content_stops_at_first_open_tag Reference.runtime b (qlit "'name'"));
    [exact Hnone | by left].
Defined.

(** ** One block split across pushes *)

Section SplitBlock.
Context `{Runtime}.
Variables (p : Protocol) (f : Format) (payload : str) (call : value).
Hypothesis Hactive : p = P_tool \/ p = P_auto.
Hypothesis Hdecodes : parseToolCallPayload payload f = Ok call.
Hypothesis Hopen : find_any open_tags (drop 1 (block payload)) = None.
Hypothesis Hclose :
  split_at_first tool_call.2 (payload ++ tool_call.2) = Some (payload, []).

#[local] Abbreviation B := (block payload).
#[local] Arguments starts_with : simpl never.

Lemma block_tool_call : exec_block tool_call.1 tool_call.2 B = Some ([], payload, []).
Proof.
  apply exec_block_here.
  - apply starts_with_prefix.
  - unfold block. by rewrite drop_app_length.
Qed.

Lemma block_other (pat : str * str) :
  pat = function_call \/ pat = tool_use -> exec_block pat.1 pat.2 B = None.
Proof.
  intros Hpat.
  destruct (exec_block pat.1 pat.2 B) as [[[pre inner] rest]|] eqn:Hex; [|done].
  exfalso. apply exec_block_starts in Hex.
  assert (Hin : In pat.1 open_tags).
  { destruct Hpat as [-> | ->]; simpl; auto. }
  destruct pre as [|c pre].
  - destruct Hpat as [-> | ->]; by vm_compute in Hex.
  - pose proof (find_any_None _ _ (length pre) _ Hopen Hin) as Hno.
    rewrite drop_drop in Hno.
    change (length (c :: pre)) with (1 + length pre) in Hex.
    congruence.
Qed.

Lemma all_patterns (pat : str * str) :
  In pat (patterns p) -> pat = tool_call \/ pat = function_call \/ pat = tool_use.
Proof. destruct p; simpl; intuition. Qed.

(** No pattern matches in a proper prefix of the block. *)
Lemma partial_block_quiet (received rest : str) (pat : str * str) :
  received ++ rest = B -> rest <> [] ->
  pat = tool_call \/ pat = function_call \/ pat = tool_use ->
  exec_block pat.1 pat.2 received = None.
Proof.
  intros HB Hrest Hpat.
  destruct (exec_block pat.1 pat.2 received) as [[[pre inner] rest']|] eqn:Hex; [|done].
  exfalso. apply (exec_block_app _ _ _ rest) in Hex. rewrite HB in Hex.
  destruct Hpat as [-> | Hpat].
  - rewrite block_tool_call in Hex. injection Hex as _ _ Hnil.
    symmetry in Hnil. apply app_eq_nil in Hnil. by destruct Hnil.
  - by rewrite block_other in Hex by done.
Qed.

Lemma scan_block : scan_patterns f (patterns p) B = ([call], true).
Proof.
  assert (Htc : exec_all tool_call.1 tool_call.2 B = [payload])
    by (by apply (exec_all_single _ _ _ []), block_tool_call).
  assert (Hfc : exec_all function_call.1 function_call.2 B = [])
    by (apply exec_all_none, block_other; auto).
  assert (Htu : exec_all tool_use.1 tool_use.2 B = [])
    by (apply exec_all_none, block_other; auto).
  unfold scan_patterns.
  destruct Hactive as [-> | ->]; cbn [patterns fold_left];
    rewrite ?Htc, ?Hfc, ?Htu; cbn [fold_left];
    unfold scan_match; by rewrite Hdecodes.
Qed.

Lemma remove_block : remove_processed B = [].
Proof.
  unfold remove_processed.
  rewrite (remove_blocks_none function_call.1) by (apply block_other; auto).
  rewrite (remove_blocks_none tool_use.1) by (apply block_other; auto).
  by apply (remove_blocks_single _ _ _ [] payload), block_tool_call.
Qed.

Lemma partial_block_visible (received rest : str) :
  received ++ rest = B -> rest <> [] ->
  find_any open_tags received
  = if starts_with tool_call.1 received then Some 0 else None.
Proof.
  intros HB Hrest.
  destruct (starts_with tool_call.1 received) eqn:Htc.
  - destruct received; simpl in *; [done|]. by rewrite Htc, !orb_true_r.
  - destruct (find_any open_tags received) as [i|] eqn:Hf; [|done].
    exfalso.
    pose proof (find_any_app _ _ rest _ open_tags_like Hf) as HfB.
    rewrite HB in HfB.
    assert (HB0 : find_any open_tags B = Some 0) by (by vm_compute).
    assert (i = 0) by congruence. subst i.
    destruct (find_any_hit _ _ _ Hf) as (t & Ht & Hs). rewrite drop_0 in Hs.
    pose proof (starts_with_app _ _ rest Hs) as HsB. rewrite HB in HsB.
    simpl in Ht. destruct Ht as [<- | [<- | [<- | []]]].
    + by vm_compute in HsB.
    + by vm_compute in HsB.
    + exact (eq_true_false_abs _ Hs Htc).
Qed.

(** One push of the run. *)
Lemma push_block_step (b : StreamingToolCallBuffer) (received c rest : str) :
  tracks p f payload b received -> received ++ c ++ rest = B ->
  tracks p f payload (push b c).1 (received ++ c)
  /\ (received ++ c <> B ->
      (push b c).2 = None
      /\ getVisibleContent (push b c).1
         = if starts_with tool_call.1 (received ++ c) then [] else received ++ c)
  /\ (received ++ c = B -> received <> B ->
      (push b c).2 = Some [call] /\ getVisibleContent (push b c).1 = [])
  /\ (received = B ->
      (push b c).2 = None /\ getVisibleContent (push b c).1 = []).
Proof.
  intros (Hf & Hp & Hbuf) HB.
  destruct Hbuf as [[Hne Hbuf] | [Heq Hbuf]].
  - destruct (decide (received ++ c = B)) as [Hfull | Hpart].
    + (* the push that completes the block *)
      assert (Hpush : push b c
                      = ({| buffer := []; format := f; protocol := p |}, Some [call])).
      { unfold push. rewrite Hbuf, Hf, Hp, Hfull, scan_block.
        by rewrite remove_block. }
      rewrite Hpush. unfold tracks. cbn [fst snd buffer format protocol].
      repeat split; try done; auto.
    + (* a push inside the block *)
      assert (Hrest : rest <> []).
      { intros ->. rewrite app_nil_r in HB. done. }
      assert (Hpush : push b c
                      = ({| buffer := received ++ c; format := f; protocol := p |},
                         None)).
      { unfold push. rewrite Hbuf, Hf, Hp.
        rewrite scan_patterns_quiet; [done|].
        intros pat Hpat.
        apply (partial_block_quiet _ rest); [by rewrite <- app_assoc|done|].
        by apply all_patterns. }
      rewrite Hpush. unfold tracks. cbn [fst snd buffer format protocol].
      split; [auto|]. split; [|split; done].
      intros _. split; [done|].
      unfold getVisibleContent. cbn [buffer].
      assert (HB' : (received ++ c) ++ rest = B) by (by rewrite <- app_assoc).
      rewrite (partial_block_visible _ rest HB' Hrest).
      by destruct (starts_with tool_call.1 (received ++ c)).
  - (* the block is complete already: nothing but empty chunks can follow *)
    assert (c = []) as ->.
    { rewrite Heq in HB.
      rewrite <- (app_nil_r B) in HB at 2. apply app_inv_head in HB.
      by apply app_eq_nil in HB as [-> _]. }
    assert (Hpush : push b []
                    = ({| buffer := []; format := f; protocol := p |}, None)).
    { unfold push. rewrite Hbuf, Hf, Hp. simpl.
      rewrite scan_patterns_quiet; [done|].
      intros pat Hpat. apply exec_block_nil.
      apply all_patterns in Hpat. by destruct Hpat as [-> | [-> | ->]]. }
    rewrite Hpush, app_nil_r. unfold tracks. cbn [fst snd buffer format protocol].
    repeat split; try done; auto.
Qed.

Lemma push_all_block (chunks : list str) :
  forall (b : StreamingToolCallBuffer) (received : str),
  tracks p f payload b received -> received ++ concat chunks = B ->
  (forall k r visible,
     push_all b chunks !! k = Some (r, visible) ->
     let before := received ++ concat (take k chunks) in
     let now := received ++ concat (take (S k) chunks) in
     (now <> B ->
      r = None /\ visible = if starts_with tool_call.1 now then [] else now)
     /\ (now = B -> before <> B -> r = Some [call] /\ visible = [])
     /\ (before = B -> r = None /\ visible = []))
  /\ detected (push_all b chunks) = if decide (received = B) then [] else [call].
Proof.
  induction chunks as [|c chunks IH]; intros b received Htr HB.
  - split; [done|]. simpl in *. rewrite app_nil_r in HB.
    unfold detected. simpl. by rewrite decide_True.
  - simpl in HB.
    destruct (push_block_step b received c (concat chunks) Htr HB)
      as (Htr' & Hpart & Hfull & Hdone).
    destruct (IH (push b c).1 (received ++ c) Htr')
      as [IHk IHd]; [by rewrite <- app_assoc|].
    simpl. destruct (push b c) as [b' r0] eqn:Hpush. simpl in *.
    split.
    + intros [|k] r visible Hk; simpl in *.
      * injection Hk as <- <-. rewrite !app_nil_r.
        split; [apply Hpart|]. split; [apply Hfull|apply Hdone].
      * specialize (IHk k r visible Hk). simpl in IHk.
        by rewrite <- !app_assoc in IHk.
    + unfold detected in *. simpl. rewrite IHd.
      destruct (decide (received = B)) as [Heq|Hne].
      * destruct (Hdone Heq) as [-> _]. simpl.
        rewrite decide_True; [done|].
        rewrite Heq in HB. rewrite Heq.
        rewrite <- (app_nil_r B) in HB at 2. apply app_inv_head in HB.
        apply app_eq_nil in HB as [-> _]. by rewrite app_nil_r.
      * destruct (decide (received ++ c = B)) as [Heq'|Hne'].
        -- by destruct (Hfull Heq' Hne) as [-> _].
        -- by destruct (Hpart Hne') as [-> _].
Qed.

End SplitBlock.

(** C2 (amended).  Split the text of one [<tool_call>] block, whose payload
    decodes, holds no open tag and no earlier close tag, into chunks in any
    way and push them into a fresh buffer whose protocol scans that
    dialect.  Exactly one call is detected, and it is reported by the push
    that completes the block.  After every earlier push nothing is
    reported, and the visible content is empty once the whole open tag has
    arrived; before that it is the part of the open tag received so far. *)
Theorem split_block_detected_once `{Runtime}
    (p : Protocol) (f : Format) (payload : str) (call : value) (chunks : list str) :
  p = P_tool \/ p = P_auto ->
  parseToolCallPayload payload f = Ok call ->
  find_any open_tags payload = None ->
  split_at_first tool_call.2 payload = None ->
  concat chunks = block payload ->
  let run := push_all (new_buffer p (Some f)) chunks in
  detected run = [call]
  /\ forall k r visible,
       run !! k = Some (r, visible) ->
       let before := concat (take k chunks) in
       let now := concat (take (S k) chunks) in
       (now <> block payload ->
        r = None /\ visible = if starts_with tool_call.1 now then [] else now)
       /\ (now = block payload -> before <> block payload ->
           r = Some [call] /\ visible = [])
       /\ (before = block payload -> r = None /\ visible = []).
Proof.
  intros Hactive Hdecodes Hpayload Hnoclose Hchunks run.
  assert (Hopen : find_any open_tags (drop 1 (block payload)) = None).
  { change (drop 1 (block payload))
      with (lit "tool_call>" ++ payload ++ tool_call.2).
    apply find_any_skip; [apply open_tags_like|by vm_compute|].
    apply find_any_before; [apply open_tags_like|done|done|by vm_compute]. }
  assert (Hclose : split_at_first tool_call.2 (payload ++ tool_call.2)
                   = Some (payload, []))
    by (by apply split_at_first_end).
  assert (Hfresh : tracks p f payload (new_buffer p (Some f)) []).
  { unfold tracks. simpl. split; [done|]. split; [done|]. left. done. }
  destruct (push_all_block p f payload call Hactive Hdecodes Hopen Hclose
              chunks (new_buffer p (Some f)) [] Hfresh Hchunks) as [Hk Hd].
  split.
  - subst run. rewrite Hd. by rewrite decide_False.
  - intros k r visible Hrun. exact (Hk k r visible Hrun).
Qed.

(** C2, as stated, fails on its own example: after the first token the
    visible content is ["<to"], not the empty string. *)
Lemma partial_open_tag_is_visible :
  @push_all Reference.runtime tool_json three_tokens !! 0 = Some (None, lit "<to")
  /\ lit "<to" <> [].
Proof. split; [by vm_compute|done]. Qed.

Lemma split_block_detected_once_witness :
  let payload := qlit "{'name':'x','arguments':{}}" in
  let run := @push_all Reference.runtime (new_buffer P_tool (Some F_json)) three_tokens in
  concat three_tokens = block payload
  /\ detected run = [call_x]
  /\ forall k r visible,
       run !! k = Some (r, visible) ->
       let before := concat (take k three_tokens) in
       let now := concat (take (S k) three_tokens) in
       (now <> block payload ->
        r = None /\ visible = if starts_with tool_call.1 now then [] else now)
       /\ (now = block payload -> before <> block payload ->
           r = Some [call_x] /\ visible = [])
       /\ (before = block payload -> r = None /\ visible = []).
Proof.
  intros payload run.
  assert (Hchunks : concat three_tokens = block payload) by (by vm_compute).
  split; [exact Hchunks|].
  apply (@split_block_detected_once Reference.runtime P_tool F_json payload
           call_x three_tokens).
  - by left.
  - by vm_compute.
  - by vm_compute.
  - by vm_compute.
  - exact Hchunks.
Defined.

(** ** Undecodable blocks *)

(** C6 (defect).  A complete block whose payload does not decode stays in
    the raw buffer when it is pushed alone, but it is cut out, unreported,
    when a block that decodes arrives in the same push: the three [replace]
    calls remove every complete block once one call was found. *)
Theorem undecoded_block_removed_with_decoded_one :
  is_ok (@parseToolCallPayload Reference.runtime (lit "oops") F_json) = false
  /\ @push Reference.runtime auto_json bad_block
     = ({| buffer := bad_block; format := F_json; protocol := P_auto |}, None)
  /\ @push Reference.runtime auto_json (bad_block ++ good_block)
     = ({| buffer := []; format := F_json; protocol := P_auto |},
        Some [VObj [(lit "name", VStr (lit "x"))]]).
Proof. by vm_compute. Qed.

(** ** The order of the decoders *)

(** C7.  With format ['auto'] the decoder tries JSON, then YAML, then XML,
    on the trimmed payload without its code fence, and returns the result
    of the first attempt that succeeds; it throws exactly when the three
    attempts all fail, and what it throws then is the one aggregate
    error. *)
Theorem auto_tries_json_yaml_xml `{Runtime} (payload : str) :
  let s := stripMarkdownCodeBlock (trim payload) in
  parseToolCallPayload payload F_auto
  = match tryParseJson s with
    | Ok v => Ok v
    | Throw _ =>
        match yaml_load s with
        | Ok v => Ok v
        | Throw _ =>
            match parseXml s with
            | Ok v => Ok v
            | Throw _ => Throw aggregate_error
            end
        end
    end
  /\ (is_ok (parseToolCallPayload payload F_auto) = false
      <-> is_ok (tryParseJson s) = false
          /\ is_ok (yaml_load s) = false
          /\ is_ok (parseXml s) = false)
  /\ (forall e, parseToolCallPayload payload F_auto = Throw e -> e = aggregate_error).
Proof.
  intros s. unfold parseToolCallPayload. fold s. unfold catch.
  destruct (tryParseJson s), (yaml_load s), (parseXml s); simpl;
    (split; [done|]); (split; [|by (intros e' [= <-] || intros e' [=])]);
    intuition congruence.
Qed.

(** ** The legacy orchestrator *)

Section LegacyFacts.
Context `{Runtime} {W : Type}.
Implicit Types (getTool : value -> option (ToolDefinition W)).
Implicit Types (acc : Legacy.State W * list Legacy.ToolCallResult).
#[local] Arguments Legacy.settle : simpl never.
#[local] Arguments Legacy.attempt : simpl never.

Lemma same_value_zero_refl (v : value) :
  primitive v = true -> same_value_zero v v = true.
Proof.
  destruct v; simpl; try done; intros _.
  - by destruct b.
  - apply Z.eqb_refl.
  - by apply bool_decide_eq_true.
Qed.

Lemma set_has_add (s : list value) (v u : value) :
  set_has s u = true -> set_has (set_add s v) u = true.
Proof.
  unfold set_add. destruct (set_has s v); [done|].
  unfold set_has. rewrite existsb_app. intros ->. done.
Qed.

Lemma set_has_added (s : list value) (v : value) :
  primitive v = true -> set_has (set_add s v) v = true.
Proof.
  intros Hv. unfold set_add. destruct (set_has s v) eqn:Hs; [done|].
  unfold set_has. rewrite existsb_app. simpl.
  by rewrite same_value_zero_refl, orb_true_r.
Qed.

(** [settle] touches neither the set of processed ids nor the warnings. *)
Lemma settle_seenIds (callId toolCall : value) (a : Legacy.Attempt W) acc :
  Legacy.seenIds (Legacy.settle callId toolCall a acc).1 = Legacy.seenIds acc.1.
Proof.
  destruct acc as [st results]. destruct a as [| |e [[tool parsedArgs]|] w]; done.
Qed.

(** A call whose id has been processed is skipped: the state and the
    results stay as they are. *)
Lemma handle_call_skip getTool (toolCall callId : value) acc :
  Legacy.callId_of toolCall = Ok callId -> truthy callId = true ->
  set_has (Legacy.seenIds acc.1) callId = true ->
  Legacy.handle_call getTool toolCall acc = Ok acc.
Proof.
  intros Hid Ht Hseen. unfold Legacy.handle_call. rewrite Hid. simpl.
  rewrite Ht. simpl. rewrite Hseen. by destruct acc.
Qed.

(** A call with a fresh id is recorded before it is attempted. *)
Lemma handle_call_records getTool (toolCall callId : value) acc :
  Legacy.callId_of toolCall = Ok callId -> truthy callId = true ->
  exists acc',
    Legacy.handle_call getTool toolCall acc = Ok acc'
    /\ Legacy.seenIds acc'.1 = set_add (Legacy.seenIds acc.1) callId.
Proof.
  intros Hid Ht. unfold Legacy.handle_call. rewrite Hid. simpl. rewrite Ht. simpl.
  destruct (set_has (Legacy.seenIds acc.1) callId) eqn:Hseen.
  - exists (acc.1, acc.2). split; [done|]. simpl.
    unfold set_add. by rewrite Hseen.
  - exists (Legacy.settle callId toolCall
              (Legacy.attempt getTool toolCall
                 (Legacy.world (Legacy.add_seen callId acc.1)))
              (Legacy.add_seen callId acc.1, acc.2)).
    split; [done|]. by rewrite settle_seenIds.
Qed.

(** Ids are never taken out of the set. *)
Lemma handle_call_keeps_seen getTool (toolCall u : value) acc acc' :
  Legacy.handle_call getTool toolCall acc = Ok acc' ->
  set_has (Legacy.seenIds acc.1) u = true ->
  set_has (Legacy.seenIds acc'.1) u = true.
Proof.
  unfold Legacy.handle_call.
  destruct (Legacy.callId_of toolCall) as [callId|e]; [|done]. simpl.
  destruct (truthy callId) eqn:Ht; simpl.
  - destruct (set_has (Legacy.seenIds acc.1) callId).
    + by intros [= <-].
    + intros [= <-] Hu. rewrite settle_seenIds. simpl. by apply set_has_add.
  - intros [= <-] Hu. by rewrite settle_seenIds.
Qed.

Lemma handle_calls_keeps_seen getTool (toolCalls : list value) (u : value) :
  forall acc acc',
  Legacy.handle_calls getTool toolCalls acc = Ok acc' ->
  set_has (Legacy.seenIds acc.1) u = true ->
  set_has (Legacy.seenIds acc'.1) u = true.
Proof.
  induction toolCalls as [|c cs IH]; intros acc acc'; simpl.
  - by intros [= <-].
  - destruct (Legacy.handle_call getTool c acc) as [acc1|e] eqn:Hc; [|done].
    simpl. intros Hcs Hu. apply (IH _ _ Hcs).
    by apply (handle_call_keeps_seen _ _ _ _ _ Hc).
Qed.

Lemma handle_calls_app getTool (xs ys : list value) acc :
  Legacy.handle_calls getTool (xs ++ ys) acc
  = bind (Legacy.handle_calls getTool xs acc) (Legacy.handle_calls getTool ys).
Proof.
  revert acc; induction xs as [|x xs IH]; intros acc; simpl; [done|].
  destruct (Legacy.handle_call getTool x acc); simpl; [apply IH|done].
Qed.

(** C4 (amended).  In [handleToolCallFromModelOutput], of two tool calls
    that carry the same id (a non-empty string or another truthy
    primitive), only the first is processed: the run over a list of calls
    is the run over the list without the second call, so the second
    invokes no handler, appends no message and adds no result. *)
Theorem duplicate_id_is_skipped getTool
    (before : list value) (first : value) (between : list value)
    (second : value) (rest : list value) (callId : value) acc :
  Legacy.callId_of first = Ok callId ->
  Legacy.callId_of second = Ok callId ->
  truthy callId = true -> primitive callId = true ->
  Legacy.handle_calls getTool (before ++ first :: between ++ second :: rest) acc
  = Legacy.handle_calls getTool (before ++ first :: between ++ rest) acc.
Proof.
  intros Hfirst Hsecond Ht Hp.
  rewrite !handle_calls_app.
  destruct (Legacy.handle_calls getTool before acc) as [acc0|e]; [|done].
  simpl.
  destruct (handle_call_records getTool first callId acc0 Hfirst Ht)
    as (acc1 & -> & Hseen1). simpl.
  rewrite !handle_calls_app.
  destruct (Legacy.handle_calls getTool between acc1) as [acc2|e] eqn:Hbetween;
    [|done].
  simpl. rewrite (handle_call_skip getTool second callId acc2 Hsecond Ht); [done|].
  apply (handle_calls_keeps_seen _ _ _ _ _ Hbetween).
  rewrite Hseen1. by apply set_has_added.
Qed.

(** C9 (amended).  [handleToolCallFromModelOutput] puts the id of a tool
    call (a non-empty string or another truthy primitive) into the set of
    processed ids before it attempts the call: a call whose id is not yet
    in the set is attempted in a state that already holds the id, and it
    leaves one result, an error as well as a success.  So the id is in the
    set whatever the attempt yields, it stays there while further calls
    are handled, and a later call with the same id is skipped. *)
Theorem id_is_recorded_before_the_attempt getTool (first callId : value) acc :
  Legacy.callId_of first = Ok callId ->
  truthy callId = true -> primitive callId = true ->
  exists acc1,
    Legacy.handle_call getTool first acc = Ok acc1
    /\ Legacy.seenIds acc1.1 = set_add (Legacy.seenIds acc.1) callId
    /\ (set_has (Legacy.seenIds acc.1) callId = false ->
        acc1 = Legacy.settle callId first
                 (Legacy.attempt getTool first (Legacy.world acc.1))
                 (Legacy.add_seen callId acc.1, acc.2)
        /\ Legacy.seenIds (Legacy.add_seen callId acc.1)
           = Legacy.seenIds acc.1 ++ [callId]
        /\ exists r, acc1.2 = acc.2 ++ [r] /\ Legacy.raw r = first)
    /\ forall (between : list value) (later : value) acc2,
         Legacy.handle_calls getTool between acc1 = Ok acc2 ->
         Legacy.callId_of later = Ok callId ->
         Legacy.handle_call getTool later acc2 = Ok acc2.
Proof.
  intros Hfirst Ht Hp.
  destruct (handle_call_records getTool first callId acc Hfirst Ht)
    as (acc1 & Hcall & Hseen).
  exists acc1. split; [done|]. split; [done|]. split.
  - intros Hfresh. revert Hcall. unfold Legacy.handle_call.
    rewrite Hfirst. cbn [bind]. rewrite Ht. cbn [andb]. rewrite Hfresh.
    intros [= <-]. split; [done|]. split.
    + cbn [Legacy.add_seen Legacy.seenIds]. unfold set_add. by rewrite Hfresh.
    + destruct acc as [st results]. cbn [fst snd].
      destruct (Legacy.attempt getTool first (Legacy.world st))
        as [tool issues|tool parsedArgs toolResult text w|e [[tool parsedArgs]|] w];
        unfold Legacy.settle; eexists; (split; [reflexivity|]); done.
  - intros between later acc2 Hbetween Hlater.
    apply (handle_call_skip getTool later callId acc2 Hlater Ht).
    apply (handle_calls_keeps_seen _ _ _ _ _ Hbetween).
    rewrite Hseen. by apply set_has_added.
Qed.

(** C10.  When the buffer reports no call for the whole model output,
    [handleToolCallFromModelOutput] appends the raw output as one assistant
    message, invokes no handler, and returns the single result named
    ['none'] with empty arguments and the raw output as its result. *)
Theorem plain_output_is_one_assistant_message
    (protocol : Protocol) (toolCallFormat : Format) (modelOutput : str)
    getTool (processedToolCallIds : option (list value)) (st : Legacy.State W) :
  (push (new_buffer protocol (Some toolCallFormat)) modelOutput).2 = None ->
  exists st',
    Legacy.handleToolCallFromModelOutput protocol toolCallFormat modelOutput
      getTool processedToolCallIds st
    = Ok ([{| Legacy.id := VUndefined; Legacy.name := VStr (lit "none");
              Legacy.args := VObj []; Legacy.result := Some (VStr modelOutput);
              Legacy.error := None; Legacy.raw := VStr modelOutput |}], st')
    /\ Legacy.history st'
       = Legacy.history st ++ [Message assistant (VStr modelOutput)]
    /\ Legacy.invocations st' = Legacy.invocations st
    /\ Legacy.world st' = Legacy.world st.
Proof.
  intros Hnone. unfold Legacy.handleToolCallFromModelOutput. rewrite Hnone.
  eexists. split; [done|]. done.
Qed.

End LegacyFacts.


Lemma duplicate_id_is_skipped_witness :
  let first := Example.call "a" "echo" in
  let second := Example.call "a" "broken" in
  @Legacy.handle_calls Reference.runtime nat Example.getTool [first; second]
    (Example.fresh, [])
  = @Legacy.handle_calls Reference.runtime nat Example.getTool [first]
      (Example.fresh, []).
Proof.
  intros first second.
  apply (@duplicate_id_is_skipped Reference.runtime nat Example.getTool
           [] first [] second [] (VStr (lit "a")) (Example.fresh, [])).
  - by vm_compute.
  - by vm_compute.
  - by vm_compute.
  - by vm_compute.
Defined.

(** C4, as stated, fails for [ChatSession.executeToolCalls], which keeps no
    set of processed ids: two calls with the id ["a"] both run the handler
    and both append a tool message. *)
Lemma session_executes_duplicate_ids :
  let s := (@ChatSession.executeToolCalls Reference.runtime nat
              (Example.config false None [])
              [Example.tool_call_a "echo"; Example.tool_call_a "echo"] None
              Example.fresh_session).2 in
  ChatSession.invocations s = [(lit "echo", VObj []); (lit "echo", VObj [])]
  /\ ChatSession.history s
     = [ToolMessage (VStr (lit "echo")) (VStr (lit "{}")) (VObj []);
        ToolMessage (VStr (lit "echo")) (VStr (lit "{}")) (VObj [])].
Proof. by vm_compute. Qed.

Lemma id_is_recorded_before_the_attempt_witness :
  let first := Example.call "a" "broken" in
  exists acc1,
    @Legacy.handle_call Reference.runtime nat Example.getTool first (Example.fresh, [])
    = Ok acc1
    /\ Legacy.seenIds acc1.1 = set_add [] (VStr (lit "a"))
    /\ (exists r, acc1.2 = [] ++ [r] /\ Legacy.raw r = first)
    /\ forall (between : list value) (later : value) acc2,
         @Legacy.handle_calls Reference.runtime nat Example.getTool between acc1
         = Ok acc2 ->
         Legacy.callId_of later = Ok (VStr (lit "a")) ->
         @Legacy.handle_call Reference.runtime nat Example.getTool later acc2 = Ok acc2.
Proof.
  intros first.
  destruct (@id_is_recorded_before_the_attempt Reference.runtime nat Example.getTool
              first (VStr (lit "a")) (Example.fresh, [])
              ltac:(by vm_compute) ltac:(by vm_compute) ltac:(by vm_compute))
    as (acc1 & Hcall & Hseen & Hattempt & Hlater).
  exists acc1. split; [done|]. split; [done|]. split; [|done].
  by apply Hattempt.
Defined.

(** C9, as stated, fails for an id that is not truthy: the empty string
    (like 0) is never put into the set, so after a first call with the id
    [''] that fails in its handler, a later call with the same id is
    attempted again. *)
Lemma falsy_id_is_attempted_again :
  let first := Example2.call_with_empty_id "broken" in
  let later := Example2.call_with_empty_id "echo" in
  get_prop first "id" = Ok (VStr [])
  /\ get_prop later "id" = Ok (VStr [])
  /\ exists st results,
       @Legacy.handle_calls Reference.runtime nat Example.getTool [first; later]
         (Example.fresh, []) = Ok (st, results)
       /\ Legacy.seenIds st = []
       /\ Legacy.invocations st = [(lit "broken", VObj []); (lit "echo", VObj [])]
       /\ map Legacy.raw results = [first; later].
Proof. split; [done|]. split; [done|]. eexists _, _. split; by vm_compute. Qed.

Lemma plain_output_is_one_assistant_message_witness :
  exists st',
    @Legacy.handleToolCallFromModelOutput Reference.runtime nat P_auto F_json
      (lit "Hello there.") Example.getTool None Example.fresh
    = Ok ([{| Legacy.id := VUndefined; Legacy.name := VStr (lit "none");
              Legacy.args := VObj []; Legacy.result := Some (VStr (lit "Hello there."));
              Legacy.error := None; Legacy.raw := VStr (lit "Hello there.") |}], st')
    /\ Legacy.history st'
       = Legacy.history Example.fresh ++ [Message assistant (VStr (lit "Hello there."))]
    /\ Legacy.invocations st' = Legacy.invocations Example.fresh
    /\ Legacy.world st' = Legacy.world Example.fresh.
Proof.
  apply (@plain_output_is_one_assistant_message Reference.runtime nat P_auto F_json
           (lit "Hello there.") Example.getTool None Example.fresh).
  by vm_compute.
Defined.

(** ** The session orchestrator *)

Section SessionFacts.
Context `{Runtime} {W : Type}.
Implicit Types (cfg : ChatSession.Config W) (s : ChatSession.Session W).
Implicit Types (onResult : option (ChatSession.Callback W ChatSession.ToolCallResult)).
Implicit Types (toolCall : ChatSession.ToolCall).
Import ChatSession.

Ltac session_simpl :=
  unfold and_then, try_catch, modify, notify, lift, ret, call_tool in *;
  cbn [world set_world push_result addMessage history toolCallResults
       invocations completions fst snd] in *.

(** Runs a method body by cases on everything it branches on, innermost
    first. *)
Ltac run_steps :=
  repeat (session_simpl;
          match goal with
          | |- context [match ?x with _ => _ end] =>
              lazymatch x with
              | context [match _ with _ => _ end] => fail
              | _ => destruct x eqn:?
              end
          end);
  session_simpl.

(** A callback that never throws has not thrown. *)
Ltac quiet :=
  intros;
  match goal with
  | Hq : forall a w, (?f a w).1 = Ok tt, Hf : ?f ?a ?w = (Throw _, _) |- _ =>
      let Hq' := fresh in
      pose proof (Hq a w) as Hq'; rewrite Hf in Hq'; discriminate Hq'
  end.

(** What the [catch] block leaves: the error in the result log and, unless
    a callback throws, the error message in the history. *)
Lemma report_error_spec cfg onResult toolCall (error : exn) s :
  exists r s',
    report_error cfg onResult toolCall error s = (r, s')
    /\ toolCallResults s'
       = toolCallResults s ++ [error_result toolCall (exn_message error)]
    /\ invocations s' = invocations s /\ completions s' = completions s
    /\ ((r = Ok tt
         /\ history s' = history s ++ [error_message toolCall (exn_message error)])
        \/ (is_ok r = false /\ history s' = history s))
    /\ (returns (onError (options cfg)) -> returns onResult -> r = Ok tt)
    /\ (onError (options cfg) = None -> onResult = None -> world s' = world s).
Proof.
  unfold report_error, returns. run_steps.
  all: eexists _, _; (split; [reflexivity|]); session_simpl.
  all: repeat split; auto; try done.
  all: quiet.
Qed.


(** What one call leaves: the result log holds the success, the error, or
    the success followed by the error that a callback or the
    stringification raised afterwards; the history holds the one message
    that goes with the last entry, unless a callback of the [catch] block
    throws. *)
Lemma execute_call_spec cfg onResult toolCall s :
  let e := run_call cfg toolCall (world s) in
  exists r s',
    execute_call cfg onResult toolCall s = (r, s')
    /\ invocations s' = invocations s ++ exec_invoked e
    /\ completions s' = completions s
    /\ match race (toolCallTimeout (options cfg)) e with
       | Ok result =>
           (r = Ok tt
            /\ toolCallResults s' = toolCallResults s ++ [success_result toolCall result]
            /\ exists text,
                 stringify_result result = Ok text
                 /\ history s' = history s ++ [tool_message toolCall text])
           \/ (exists error,
                 toolCallResults s'
                 = toolCallResults s
                     ++ [success_result toolCall result;
                         error_result toolCall (exn_message error)]
                 /\ ((r = Ok tt
                      /\ history s'
                         = history s ++ [error_message toolCall (exn_message error)])
                     \/ (is_ok r = false /\ history s' = history s)))
       | Throw error =>
           toolCallResults s'
           = toolCallResults s ++ [error_result toolCall (exn_message error)]
           /\ ((r = Ok tt
                /\ history s'
                   = history s ++ [error_message toolCall (exn_message error)])
               \/ (is_ok r = false /\ history s' = history s))
       end
    /\ (returns (onError (options cfg)) -> returns onResult -> r = Ok tt).
Proof.
  intros e. unfold execute_call. session_simpl. fold e.
  destruct (race (toolCallTimeout (options cfg)) e) as [result|error] eqn:Hrace.
  2: { match goal with
       | |- context [report_error ?c ?o ?t ?x ?s0] =>
           destruct (report_error_spec c o t x s0)
             as (r & s' & -> & Hr & Hi & Hc & Hh & Hq & _)
       end.
       exists r, s'. session_simpl. repeat split; auto. }
  run_steps.
  all: try match goal with
       | |- context [report_error ?c ?o ?t ?x ?s0] =>
           destruct (report_error_spec c o t x s0)
             as (r & s' & -> & Hr & Hi & Hc & Hh & Hq & _);
           session_simpl; rewrite <- app_assoc in Hr;
           exists r, s'; (split; [reflexivity|]);
           (split; [done|]); (split; [done|]); (split; [|done]);
           right; eexists; split; [exact Hr|exact Hh]
       end.
  all: eexists _, _; (split; [reflexivity|]); session_simpl;
    (split; [done|]); (split; [done|]); (split; [|done]);
    left; eauto.
Qed.



(** Without callbacks the world is the one that the tool execution
    leaves. *)
Lemma execute_call_world cfg toolCall s r s' :
  onToolCall (options cfg) = None -> onError (options cfg) = None ->
  execute_call cfg None toolCall s = (r, s') ->
  world s' = exec_world (run_call cfg toolCall (world s)).
Proof.
  intros HonToolCall HonError. unfold execute_call, report_error. session_simpl.
  rewrite HonToolCall, HonError. run_steps.
  all: by intros [= <- <-].
Qed.

(** One call appends one message, unless a callback of the [catch] block
    throws; the count of the model invocations is not touched. *)
Lemma execute_call_message cfg onResult toolCall s :
  exists r s' msgs,
    execute_call cfg onResult toolCall s = (r, s')
    /\ history s' = history s ++ msgs
    /\ completions s' = completions s
    /\ ((r = Ok tt /\ exists o, msgs = [call_message toolCall o])
        \/ (is_ok r = false /\ msgs = []))
    /\ (returns (onError (options cfg)) -> returns onResult -> r = Ok tt).
Proof.
  destruct (execute_call_spec cfg onResult toolCall s)
    as (r & s' & Heq & _ & Hc & Hcases & Hq).
  assert (Herror : forall error,
             (r = Ok tt
              /\ history s' = history s ++ [error_message toolCall (exn_message error)])
             \/ (is_ok r = false /\ history s' = history s) ->
             exists msgs,
               history s' = history s ++ msgs
               /\ ((r = Ok tt /\ exists o, msgs = [call_message toolCall o])
                   \/ (is_ok r = false /\ msgs = []))).
  { intros error [[Hr Hh]|[Hr Hh]].
    - eexists. split; [exact Hh|]. left. split; [done|]. by exists (Throw error).
    - exists []. rewrite app_nil_r. split; [done|]. by right. }
  destruct (race _ _) as [result|error].
  - destruct Hcases as [(Hr & _ & text & Htext & Hh)|(error & _ & Hrest)].
    + exists r, s', [tool_message toolCall text]. repeat split; try done.
      left. split; [done|]. exists (Ok result).
      unfold call_message. cbn [bind]. by rewrite Htext.
    + destruct (Herror error Hrest) as (msgs & Hh & Hm). by exists r, s', msgs.
  - destruct Hcases as [_ Hrest].
    destruct (Herror error Hrest) as (msgs & Hh & Hm). by exists r, s', msgs.
Qed.

(** The calls are executed one after the other, each appending its one
    message, up to the first call at which a callback of the [catch] block
    throws. *)
Lemma executeToolCalls_spec cfg onResult (toolCalls : list ToolCall) :
  forall s, exists r s' k msgs,
    executeToolCalls cfg toolCalls onResult s = (r, s')
    /\ history s' = history s ++ msgs
    /\ completions s' = completions s
    /\ k <= length toolCalls
    /\ Forall2 (fun toolCall m => exists o, m = call_message toolCall o)
         (take k toolCalls) msgs
    /\ (is_ok r = true -> k = length toolCalls)
    /\ (returns (onError (options cfg)) -> returns onResult -> r = Ok tt).
Proof.
  induction toolCalls as [|c cs IH]; intros s; cbn [executeToolCalls].
  - exists (Ok tt), s, 0, []. rewrite app_nil_r. repeat split; auto.
  - unfold and_then.
    destruct (execute_call_message cfg onResult c s)
      as (r1 & s1 & msgs1 & -> & Hh1 & Hc1 & Hm1 & Hq1).
    destruct Hm1 as [[-> (o & ->)]|[Hr1 ->]].
    + destruct (IH s1) as (r & s' & k & msgs & -> & Hh & Hc & Hk & Hall & Hok & Hq).
      exists r, s', (S k), (call_message c o :: msgs).
      split; [done|]. split; [by rewrite Hh, Hh1, <- app_assoc|].
      split; [congruence|]. split; [simpl; lia|].
      split; [constructor; eauto|]. split; [|done].
      intros Hr. simpl. by rewrite (Hok Hr).
    + destruct r1 as [[]|e]; [done|].
      exists (Throw e), s1, 0, []. split; [done|].
      split; [done|]. split; [done|]. split; [simpl; lia|].
      split; [constructor|]. split; [done|done].
Qed.

(** What a round appends behind the assistant content. *)
Lemma round_messages cfg (toolCalls : list ToolCall) s1 :
  exists r s' msgs,
    match toolCalls, mcpService cfg with
    | _ :: _, Some _ => executeToolCalls cfg toolCalls None
    | _, _ => ret tt
    end s1 = (r, s')
    /\ history s' = history s1 ++ msgs
    /\ completions s' = completions s1
    /\ (returns (onError (options cfg)) -> r = Ok tt)
    /\ (toolCalls = [] -> r = Ok tt)
    /\ match mcpService cfg with
       | Some _ =>
           exists k,
             k <= length toolCalls
             /\ (is_ok r = true -> k = length toolCalls)
             /\ Forall2 (fun toolCall m => exists o, m = call_message toolCall o)
                  (take k toolCalls) msgs
       | None => msgs = [] /\ r = Ok tt
       end.
Proof.
  destruct toolCalls as [|c cs], (mcpService cfg) as [svc|].
  - exists (Ok tt), s1, []. rewrite app_nil_r. repeat split; auto.
    exists 0. repeat split; auto.
  - exists (Ok tt), s1, []. rewrite app_nil_r. repeat split; auto.
  - destruct (executeToolCalls_spec cfg None (c :: cs) s1)
      as (r & s' & k & msgs & Heq & Hh & Hc & Hk & Hall & Hok & Hq).
    exists r, s', msgs. repeat split; auto; try done.
    + intros Hquiet. by apply Hq.
    + by exists k.
  - exists (Ok tt), s1, []. rewrite app_nil_r. repeat split; auto.
Qed.

(** [processSegments] step by step. *)
Lemma processSegments_eq cfg (segments : list ExtractedSegment) s :
  processSegments cfg segments s
  = let text := (collect segments).1 in
    let s1 :=
      if non_blank text then addMessage (Message assistant (VStr text)) s else s in
    match match (collect segments).2, mcpService cfg with
          | _ :: _, Some _ => executeToolCalls cfg (collect segments).2 None
          | _, _ => ret tt
          end s1 with
    | (Ok _, s') => (Ok text, s')
    | (Throw e, s') => (Throw e, s')
    end.
Proof.
  unfold processSegments. destruct (collect segments) as [text calls].
  cbn [fst snd]. unfold and_then, modify, ret. by destruct (non_blank text).
Qed.

Lemma processSegments_completions cfg (segments : list ExtractedSegment) s :
  completions (processSegments cfg segments s).2 = completions s.
Proof.
  rewrite processSegments_eq. cbv zeta.
  match goal with
  | |- context [match ?calls with [] => _ | _ => _ end ?s1] =>
      destruct (round_messages cfg calls s1) as (r & s' & msgs & -> & _ & Hc & _)
  end.
  destruct r; cbn [snd]; rewrite Hc; by destruct (non_blank _).
Qed.

Lemma processSegments_result cfg (segments : list ExtractedSegment) s (result : str) :
  (processSegments cfg segments s).1 = Ok result -> result = (collect segments).1.
Proof.
  rewrite processSegments_eq. cbv zeta.
  match goal with
  | |- context [match ?calls with [] => _ | _ => _ end ?s1] =>
      destruct (round_messages cfg calls s1) as (r & s' & msgs & -> & _)
  end.
  destruct r; cbn; congruence.
Qed.

(** A round returns its content when no callback throws; a round without
    a tool call always does. *)
Lemma processSegments_returns cfg (segments : list ExtractedSegment) s :
  returns (onError (options cfg)) \/ (collect segments).2 = [] ->
  (processSegments cfg segments s).1 = Ok (collect segments).1.
Proof.
  intros Hquiet. rewrite processSegments_eq. cbv zeta.
  match goal with
  | |- context [match ?calls with [] => _ | _ => _ end ?s1] =>
      destruct (round_messages cfg calls s1)
        as (r & s' & msgs & -> & _ & _ & Hq & Hnil & _)
  end.
  destruct Hquiet as [Hquiet|Hquiet]; [rewrite (Hq Hquiet)|rewrite (Hnil Hquiet)]; done.
Qed.

Lemma collect_no_calls (segments : list ExtractedSegment) :
  hasToolCalls segments = false -> (collect segments).2 = [].
Proof.
  unfold collect, hasToolCalls.
  assert (Hacc : forall (acc : str * list ToolCall),
             existsb (fun seg => match seg with tool_call _ => true | _ => false end)
               segments = false ->
             (fold_left
                (fun acc segment =>
                   match segment with
                   | content data => (acc.1 ++ data, acc.2)
                   | tool_call data => (acc.1, acc.2 ++ [data])
                   | other => acc
                   end) segments acc).2 = acc.2).
  { induction segments as [|seg segments IH]; intros acc; simpl; [done|].
    destruct seg as [data|data|]; simpl; try done.
    - intros Hrest. by rewrite (IH _ Hrest).
    - apply IH. }
  intros Hnone. by rewrite (Hacc _ Hnone).
Qed.


(** The loop makes one model invocation per round until the cap is
    reached, as long as every answer holds a tool call and no round
    throws. *)
Lemma agentic_loop_runs_to_cap cfg :
  returns (onError (options cfg)) ->
  (forall h w, exists segments w',
      completion cfg h w = (Ok segments, w') /\ hasToolCalls segments = true) ->
  forall (fuel : nat) (iterations : Z) s,
  (iteration_cap (options cfg) - iterations <= Z.of_nat fuel)%Z ->
  exists s',
    agentic_loop fuel cfg iterations s = Some (Ok [], s')
    /\ completions s'
       = completions s + Z.to_nat (iteration_cap (options cfg) - iterations).
Proof.
  intros Hquiet Hcalls.
  induction fuel as [|fuel IH]; intros iterations s Hfuel.
  - simpl. destruct (iterations <? iteration_cap (options cfg))%Z eqn:Hlt; [lia|].
    exists s. split; [done|]. lia.
  - simpl. destruct (iterations <? iteration_cap (options cfg))%Z eqn:Hlt.
    + unfold complete.
      destruct (Hcalls (history s) (world s)) as (segments & w' & -> & Hhas).
      match goal with
      | |- context [processSegments cfg segments ?s0] =>
          pose proof (processSegments_returns cfg segments s0 (or_introl Hquiet)) as Hr;
          pose proof (processSegments_completions cfg segments s0) as Hc;
          destruct (processSegments cfg segments s0) as [r s''] eqn:Hps
      end.
      cbn [fst snd completions] in Hr, Hc. rewrite Hr, Hhas. cbn [negb].
      destruct (IH (iterations + 1)%Z s'') as (s' & -> & Hcount); [lia|].
      exists s'. split; [done|]. rewrite Hcount, Hc. lia.
    + exists s. split; [done|]. lia.
Qed.

(** C5 (amended).  In agentic mode with [maxAgenticIterations = N] and
    [N >= 1], if the provider never fails, every round's output holds a
    tool call and the [onError] callback never throws, [agenticChat] makes
    exactly [N] model invocations and then stops.  A round whose output
    holds no tool call ends the loop at once: no further invocation is
    made and the content of that round is returned. *)
Theorem agentic_loop_is_bounded cfg (N : Z) :
  maxAgenticIterations (options cfg) = Some N -> (1 <= N)%Z ->
  (forall s,
     returns (onError (options cfg)) ->
     (forall h w, exists segments w',
         completion cfg h w = (Ok segments, w') /\ hasToolCalls segments = true) ->
     exists r s',
       agenticChat cfg s = Some (r, s')
       /\ Z.of_nat (completions s') = (Z.of_nat (completions s) + N)%Z)
  /\ (forall (fuel : nat) (iterations : Z) s (segments : list ExtractedSegment) (w : W),
        (iterations < N)%Z ->
        completion cfg (history s) (world s) = (Ok segments, w) ->
        hasToolCalls segments = false ->
        exists s',
          agentic_loop (S fuel) cfg iterations s = Some (Ok (collect segments).1, s')
          /\ completions s' = S (completions s)).
Proof.
  intros Hmax HN.
  assert (Hcap : iteration_cap (options cfg) = N).
  { unfold iteration_cap. rewrite Hmax.
    destruct (N =? 0)%Z eqn:H0; [lia|done]. }
  split.
  - intros s Hquiet Hcalls. unfold agenticChat.
    destruct (agentic_loop_runs_to_cap cfg Hquiet Hcalls
                (Z.to_nat (iteration_cap (options cfg))) 0%Z s) as (s' & Hloop & Hcount);
      [lia|].
    exists (Ok []), s'. split; [done|]. rewrite Hcount, Hcap. lia.
  - intros fuel iterations s segments w Hlt Hcompletion Hnone.
    simpl. rewrite Hcap.
    destruct (iterations <? N)%Z eqn:Hlt'; [|lia].
    unfold complete. rewrite Hcompletion.
    match goal with
    | |- context [processSegments cfg segments ?s0] =>
        pose proof (processSegments_returns cfg segments s0
                      (or_intror (collect_no_calls segments Hnone))) as Hr;
        pose proof (processSegments_completions cfg segments s0) as Hc;
        destruct (processSegments cfg segments s0) as [r s''] eqn:Hps
    end.
    cbn [fst snd completions] in Hr, Hc. rewrite Hr, Hnone. cbn [negb].
    exists s''. split; [done|]. done.
Qed.

End SessionFacts.

(** ** What a tool call leaves in the history *)

Section CallMessages.
Context `{Runtime} {W : Type}.
Implicit Types (cfg : ChatSession.Config W) (s : ChatSession.Session W).
Implicit Types (onResult : option (ChatSession.Callback W ChatSession.ToolCallResult)).
Implicit Types (toolCall : ChatSession.ToolCall).
#[local] Arguments Legacy.settle : simpl never.





End CallMessages.

(** ** Closed examples for the orchestrators *)



(** C5, as stated, fails.  With [maxAgenticIterations = 0] the loop falls
    back to five rounds; when the cap ends the loop, here after one round
    whose content is ["thinking"], the empty string is returned; and when
    the [onError] callback throws, here for a call to a tool that is not
    registered, the loop ends after one round although the cap is 3. *)
Lemma agentic_cap_fallback_and_return :
  (exists r s',
     @ChatSession.agenticChat Reference.runtime nat
       (Example.config true (Some 0%Z)
          [ChatSession.tool_call (Example.tool_call_a "echo")])
       Example.fresh_session = Some (r, s')
     /\ ChatSession.completions s' = 5)
  /\ (exists s',
        @ChatSession.agenticChat Reference.runtime nat
          (Example.config true (Some 1%Z)
             [ChatSession.content (lit "thinking");
              ChatSession.tool_call (Example.tool_call_a "echo")])
          Example.fresh_session = Some (Ok [], s')
        /\ ChatSession.completions s' = 1
        /\ ChatSession.history s'
           = [Message assistant (VStr (lit "thinking"));
              ToolMessage (VStr (lit "echo")) (VStr (lit "{}")) (VObj [])])
  /\ (exists s',
        @ChatSession.agenticChat Reference.runtime nat
          (Example2.touchy (Some 3%Z)
             [ChatSession.tool_call (Example.tool_call_a "missing")])
          Example.fresh_session
        = Some (Throw (Error (lit "Error") (lit "Tool 'missing' not found")), s')
        /\ ChatSession.completions s' = 1
        /\ ChatSession.history s' = []).
Proof.
  split; [eexists _, _|split; eexists]; split; by vm_compute.
Qed.

Lemma agentic_loop_is_bounded_witness :
  let busy :=
    Example.config true (Some 2%Z) [ChatSession.tool_call (Example.tool_call_a "echo")] in
  let done :=
    Example.config true (Some 2%Z) [ChatSession.content (lit "All set.")] in
  (exists r s',
     @ChatSession.agenticChat Reference.runtime nat busy Example.fresh_session
     = Some (r, s')
     /\ Z.of_nat (ChatSession.completions s')
        = (Z.of_nat (ChatSession.completions Example.fresh_session) + 2)%Z)
  /\ (exists s',
        @ChatSession.agentic_loop Reference.runtime nat 1 done 0%Z Example.fresh_session
        = Some (Ok (lit "All set."), s')
        /\ ChatSession.completions s' = 1).
Proof.
  intros busy done. split.
  - apply (proj1 (@agentic_loop_is_bounded Reference.runtime nat busy 2%Z
                    eq_refl ltac:(lia))); [exact I|].
    intros h w. eexists _, w. split; by vm_compute.
  - apply (proj2 (@agentic_loop_is_bounded Reference.runtime nat done 2%Z
                    eq_refl ltac:(lia))
             0 0%Z Example.fresh_session [ChatSession.content (lit "All set.")] 0).
    + lia.
    + by vm_compute.
    + by vm_compute.
Defined.



(** * Further properties *)

(** ** White space and fences *)

Section TrimFacts.

Lemma trim_start_spaces (ws s : str) :
  forallb is_space ws = true -> trim_start (ws ++ s) = trim_start s.
Proof.
  induction ws as [|c ws IH]; simpl; [done|].
  intros [Hc Hws]%andb_prop. rewrite Hc. by apply IH.
Qed.

Lemma trim_start_all_space (ws : str) :
  forallb is_space ws = true -> trim_start ws = [].
Proof.
  intros Hws. rewrite <- (app_nil_r ws). by rewrite trim_start_spaces.
Qed.

Lemma forallb_rev {A} (f : A -> bool) (l : list A) :
  forallb f (rev l) = forallb f l.
Proof.
  induction l as [|x l IH]; simpl; [done|].
  rewrite forallb_app, IH. simpl. rewrite andb_true_r. apply andb_comm.
Qed.

Lemma trim_end_spaces (s ws : str) :
  forallb is_space ws = true -> trim_end (s ++ ws) = trim_end s.
Proof.
  intros Hws. unfold trim_end. rewrite rev_app_distr.
  rewrite trim_start_spaces; [done|]. by rewrite forallb_rev.
Qed.

(** White space around a text does not change what [trim] returns. *)
Lemma trim_spaces (ws1 s ws2 : str) :
  forallb is_space ws1 = true -> forallb is_space ws2 = true ->
  trim (ws1 ++ s ++ ws2) = trim s.
Proof.
  intros H1 H2. unfold trim. rewrite trim_start_spaces by done.
  induction s as [|c s IH]; simpl.
  - by rewrite trim_start_all_space.
  - destruct (is_space c); [done|].
    change (c :: s ++ ws2) with ((c :: s) ++ ws2). by apply trim_end_spaces.
Qed.

Lemma trim_start_head (s : str) (c : ascii) (t : str) :
  trim_start s = c :: t -> is_space c = false.
Proof.
  induction s as [|x s IH]; simpl; [done|].
  destruct (is_space x) eqn:Hx; [done|]. by intros [= <- <-].
Qed.

Lemma trim_start_fixed (s : str) :
  match s with [] => True | c :: _ => is_space c = false end ->
  trim_start s = s.
Proof. destruct s as [|c s]; simpl; [done|]. by intros ->. Qed.

Lemma trim_start_idem (s : str) : trim_start (trim_start s) = trim_start s.
Proof.
  apply trim_start_fixed. destruct (trim_start s) as [|c t] eqn:Hs; [done|].
  by apply (trim_start_head s c t).
Qed.

Lemma trim_start_snoc (l : str) (c : ascii) :
  is_space c = false -> exists l', trim_start (l ++ [c]) = l' ++ [c].
Proof.
  intros Hc. induction l as [|x l IH]; simpl.
  - rewrite Hc. by exists [].
  - destruct (is_space x); [done|]. by exists (x :: l).
Qed.

(** [trimEnd] keeps a first character that is no white space. *)
Lemma trim_end_cons (c : ascii) (t : str) :
  is_space c = false -> exists u, trim_end (c :: t) = c :: u.
Proof.
  intros Hc. unfold trim_end. simpl.
  destruct (trim_start_snoc (rev t) c Hc) as [l' ->].
  rewrite rev_app_distr. simpl. by exists (rev l').
Qed.

Lemma trim_end_idem (s : str) : trim_end (trim_end s) = trim_end s.
Proof. unfold trim_end. by rewrite rev_involutive, trim_start_idem. Qed.

Lemma trim_end_snoc (l : str) (c : ascii) :
  is_space c = false -> trim_end (l ++ [c]) = l ++ [c].
Proof.
  intros Hc. unfold trim_end. rewrite rev_app_distr. simpl. rewrite Hc.
  simpl. by rewrite rev_involutive.
Qed.

Lemma trim_idem (s : str) : trim (trim s) = trim s.
Proof.
  unfold trim. destruct (trim_start s) as [|c t] eqn:Hs; [done|].
  pose proof (trim_start_head s c t Hs) as Hc.
  destruct (trim_end_cons c t Hc) as [u Hu]. rewrite Hu.
  simpl. rewrite Hc, <- Hu. apply trim_end_idem.
Qed.

End TrimFacts.

Section DecoderFacts.
Context `{Runtime}.

(** X1.  White space around a payload is ignored: a payload decodes, in
    every format, exactly as the payload without the white space before
    and after it. *)
Theorem payload_white_space_is_ignored (ws1 payload ws2 : str) (f : Format) :
  forallb is_space ws1 = true -> forallb is_space ws2 = true ->
  parseToolCallPayload (ws1 ++ payload ++ ws2) f = parseToolCallPayload payload f.
Proof.
  intros H1 H2. unfold parseToolCallPayload. by rewrite trim_spaces.
Qed.

Lemma skip_while_run (f : ascii -> bool) (run : str) (c : ascii) (rest : str) :
  forallb f run = true -> f c = false ->
  skip_while f (run ++ c :: rest) = c :: rest.
Proof.
  intros Hrun Hc. induction run as [|x run IH]; simpl.
  - by rewrite Hc.
  - simpl in Hrun. apply andb_prop in Hrun as [-> Hrun]. by apply IH.
Qed.

(** X2.  A fenced block is unwrapped: three backquotes, a language word (or
    none), a line break, the body, a line break and three backquotes give
    the trimmed body. *)
Theorem fenced_payload_is_unwrapped (lang body : str) :
  forallb is_word lang = true ->
  stripMarkdownCodeBlock
    (lit "```" ++ lang ++ newline :: body ++ newline :: lit "```")
  = trim body.
Proof.
  intros Hlang. unfold stripMarkdownCodeBlock.
  set (text := lit "```" ++ lang ++ newline :: body ++ newline :: lit "```").
  assert (Htrim : trim text = text).
  { unfold trim. rewrite trim_start_fixed by done. subst text.
    replace (lit "```" ++ lang ++ newline :: body ++ newline :: lit "```")
      with ((lit "```" ++ lang ++ newline :: body ++ newline :: lit "``")
              ++ [ascii_of_nat 96])
      by (rewrite <- !app_assoc; simpl; by rewrite <- !app_assoc).
    by apply trim_end_snoc. }
  rewrite Htrim. unfold code_block_match. subst text.
  rewrite starts_with_prefix.
  change 3 with (length (lit "```")) at 1. rewrite drop_app_length.
  rewrite skip_while_run by done.
  rewrite Ascii.eqb_refl. cbn [andb].
  assert (Hends : ends_with (newline :: lit "```") (body ++ newline :: lit "```") = true).
  { unfold ends_with. rewrite rev_app_distr. apply starts_with_prefix. }
  rewrite Hends.
  rewrite length_app. cbn [length lit list_ascii_of_string].
  replace (length body + 4 - 4) with (length body) by lia.
  by rewrite take_app_length.
Qed.

(** X3.  What [stripMarkdownCodeBlock] returns has no white space left at
    its ends, and a text that does not begin with a fence (once trimmed)
    is returned trimmed. *)
Theorem stripped_text_is_trimmed (text : str) :
  trim (stripMarkdownCodeBlock text) = stripMarkdownCodeBlock text
  /\ (starts_with (lit "```") (trim text) = false ->
      stripMarkdownCodeBlock text = trim text).
Proof.
  unfold stripMarkdownCodeBlock, code_block_match. split.
  - destruct (starts_with (lit "```") (trim text)); [|apply trim_idem].
    destruct (skip_while is_word (drop 3 (trim text))) as [|c body];
      [apply trim_idem|].
    destruct (Ascii.eqb c newline && ends_with (newline :: lit "```") body);
      apply trim_idem.
  - by intros ->.
Qed.

End DecoderFacts.

(** ** JSON inside prose, and the XML shape *)

Section FallbackFacts.
Context `{Runtime}.

Lemma split_at_last_lacks (c : ascii) (s : str) :
  lacks c s = true -> split_at_last [c] s = None.
Proof.
  induction s as [|x s IH]; simpl; [done|].
  intros [Hx Hs]%andb_prop. rewrite (IH Hs).
  rewrite Ascii.eqb_sym. by destruct (Ascii.eqb x c).
Qed.

Lemma split_at_last_char (c : ascii) (body post : str) :
  lacks c post = true -> split_at_last [c] (body ++ c :: post) = Some (body, post).
Proof.
  intros Hpost. induction body as [|x body IH].
  - simpl. rewrite (split_at_last_lacks c post Hpost).
    by rewrite Ascii.eqb_refl.
  - simpl. by rewrite IH.
Qed.

Lemma exec_greedy_here (op cl s inner rest : str) :
  starts_with op s = true ->
  split_at_last cl (drop (length op) s) = Some (inner, rest) ->
  exec_greedy op cl s = Some (op ++ inner ++ cl).
Proof. intros Hop Hs. destruct s; simpl in *; by rewrite Hop, Hs. Qed.

Lemma exec_greedy_chars (o c : ascii) (pre body post : str) :
  lacks o pre = true -> lacks c post = true ->
  exec_greedy [o] [c] (pre ++ o :: body ++ c :: post) = Some (o :: body ++ [c]).
Proof.
  intros Hpre Hpost. induction pre as [|x pre IH].
  - apply (exec_greedy_here [o] [c] _ body post).
    + simpl. by rewrite Ascii.eqb_refl.
    + simpl. by apply split_at_last_char.
  - simpl in Hpre. apply andb_prop in Hpre as [Hx Hpre].
    simpl. rewrite Ascii.eqb_sym.
    destruct (Ascii.eqb x o); [done|]. by apply IH.
Qed.

Lemma exec_greedy_lacks (o : ascii) (cl s : str) :
  lacks o s = true -> exec_greedy [o] cl s = None.
Proof.
  induction s as [|x s IH]; simpl; [done|].
  intros [Hx Hs]%andb_prop. rewrite Ascii.eqb_sym.
  destruct (Ascii.eqb x o); [done|]. by apply IH.
Qed.

(** X4.  JSON wrapped in prose is found: when the whole text is not JSON,
    [tryParseJson] parses the text from its first opening brace to its
    last closing brace. *)
Theorem json_inside_prose_is_parsed (pre body post : str) :
  lacks "{" pre = true -> lacks "}" post = true ->
  is_ok (JSON_parse (pre ++ lit "{" ++ body ++ lit "}" ++ post)) = false ->
  tryParseJson (pre ++ lit "{" ++ body ++ lit "}" ++ post)
  = JSON_parse (lit "{" ++ body ++ lit "}").
Proof.
  intros Hpre Hpost Hwhole. unfold tryParseJson.
  destruct (JSON_parse (pre ++ lit "{" ++ body ++ lit "}" ++ post)) as [v|e] eqn:Hp;
    [done|].
  cbn [catch].
  change (pre ++ lit "{" ++ body ++ lit "}" ++ post)
    with (pre ++ "{"%char :: body ++ "}"%char :: post).
  change (lit "{") with ["{"%char]. change (lit "}") with ["}"%char].
  by rewrite exec_greedy_chars.
Qed.

(** X5.  A text that is not JSON and holds no opening brace is refused
    with the error ['Malformed JSON in tool/function call payload.']; a
    text that is JSON is parsed as it is. *)
Theorem json_without_brace_is_malformed (s : str) :
  (forall v, JSON_parse s = Ok v -> tryParseJson s = Ok v)
  /\ (is_ok (JSON_parse s) = false -> lacks "{" s = true ->
      tryParseJson s
      = Throw (new_Error "Malformed JSON in tool/function call payload.")).
Proof.
  unfold tryParseJson. split.
  - by intros v ->.
  - intros Hs Hlacks. destruct (JSON_parse s); [done|]. cbn [catch].
    change (lit "{") with ["{"%char]. by rewrite exec_greedy_lacks.
Qed.

(** Every text that holds an open tag and, behind it, a close tag is
    matched by the block pattern. *)
Lemma exec_block_complete (op cl s a b c : str) :
  s = a ++ op ++ b ++ cl ++ c -> is_Some (exec_block op cl s).
Proof.
  revert s; induction a as [|x a IH]; intros s ->.
  - assert (Hop : starts_with op (op ++ b ++ cl ++ c) = true)
      by apply starts_with_prefix.
    destruct (split_at_first_complete cl (b ++ cl ++ c) b c eq_refl) as [[i r] Hs].
    simpl app. rewrite (exec_block_here op cl _ i r Hop); [eauto|].
    by rewrite drop_app_length.
  - simpl.
    destruct (if starts_with op (x :: a ++ op ++ b ++ cl ++ c)
              then split_at_first cl (drop (length op) (x :: a ++ op ++ b ++ cl ++ c))
              else None) as [[i r]|]; [eauto|].
    destruct (IH _ eq_refl) as [[[pre i] r] ->]. eauto.
Qed.

(** The first element: when no open tag starts in the text before it and
    its body holds no close tag, the block pattern matches exactly there. *)
Lemma exec_block_at (op cl a b c : str) :
  tag_like op = true -> tag_like cl = true ->
  find_any [op] a = None -> split_at_first cl b = None ->
  exec_block op cl (a ++ op ++ b ++ cl ++ c) = Some (a, b, c).
Proof.
  intros Hop Hcl Ha Hb. induction a as [|x a IH].
  - change ([] ++ op ++ b ++ cl ++ c) with (op ++ b ++ cl ++ c).
    apply exec_block_here; [apply starts_with_prefix|].
    rewrite drop_app_length.
    pose proof (split_at_first_end cl b Hcl Hb) as Hend.
    apply (split_at_first_app _ _ c) in Hend. by rewrite <- app_assoc in Hend.
  - simpl in Ha. rewrite orb_false_r in Ha.
    destruct (starts_with op (x :: a)) eqn:Hs; [done|].
    destruct (find_any [op] a) eqn:Hf; [done|].
    cbn [app exec_block].
    change (x :: a ++ op ++ b ++ cl ++ c) with ((x :: a) ++ op ++ b ++ cl ++ c).
    rewrite tag_like_no_straddle, Hs; [|done|done|].
    + change ((x :: a) ++ op ++ b ++ cl ++ c) with (x :: a ++ op ++ b ++ cl ++ c).
      by rewrite (IH eq_refl).
    + destruct op as [|o op]; [done|]. simpl in Hop.
      apply andb_prop in Hop as [->%Ascii.eqb_eq _]. done.
Qed.

(** X6.  [parseXml] fails exactly on a text without a [<name>...</name>]
    element, with the error ['No <name> in XML payload.']; so with format
    ['auto'] no payload that holds such an element is refused. *)
Theorem xml_needs_a_name_element (s : str) :
  (is_ok (parseXml s) = true
   <-> exists a b c, s = a ++ lit "<name>" ++ b ++ lit "</name>" ++ c)
  /\ (forall e, parseXml s = Throw e -> e = new_Error "No <name> in XML payload.")
  /\ (forall payload,
        s = stripMarkdownCodeBlock (trim payload) ->
        is_ok (parseXml s) = true ->
        is_ok (parseToolCallPayload payload F_auto) = true).
Proof.
  split; [|split].
  - unfold parseXml. split.
    + destruct (exec_block (lit "<name>") (lit "</name>") s)
        as [[[a b] c]|] eqn:Hn; [|done].
      intros _. exists a, b, c. by apply exec_block_sound.
    + intros (a & b & c & Hs).
      destruct (exec_block_complete _ _ _ _ _ _ Hs) as [[[a' b'] c'] ->]. done.
  - unfold parseXml. intros e.
    destruct (exec_block (lit "<name>") (lit "</name>") s) as [[[a b] c]|]; [done|].
    by intros [= <-].
  - intros payload -> Hxml. unfold parseToolCallPayload, catch.
    destruct (tryParseJson _); [done|]. destruct (yaml_load _); [done|].
    by destruct (parseXml _).
Qed.

(** X7.  [parseXml] reads the first [<name>] element, trimmed, and takes
    the arguments from the first [<arguments>] element, parsed as JSON,
    else as YAML, else kept as text; without such an element the
    arguments are those of ["{}"]. *)
Theorem xml_reads_the_first_name (a n c : str) :
  find_any [lit "<name>"] a = None ->
  split_at_first (lit "</name>") n = None ->
  let s := a ++ lit "<name>" ++ n ++ lit "</name>" ++ c in
  let args :=
    match exec_block (lit "<arguments>") (lit "</arguments>") s with
    | Some (_, body, _) => trim body
    | None => lit "{}"
    end in
  parseXml s
  = Ok (VObj [(lit "name", VStr (trim n));
              (lit "arguments",
               match JSON_parse args with
               | Ok v => v
               | Throw _ =>
                   match yaml_load args with
                   | Ok v => v
                   | Throw _ => VStr args
                   end
               end)]).
Proof.
  intros Ha Hn s args. unfold parseXml. fold s.
  subst s. rewrite (exec_block_at (lit "<name>") (lit "</name>") a n c) by done.
  done.
Qed.

End FallbackFacts.

(** ** More on the dialect buffer *)

Section BufferMore.
Context `{Runtime}.

Lemma exec_block_needs_close (op cl s : str) :
  split_at_first cl s = None -> exec_block op cl s = None.
Proof.
  intros Hcl. destruct (exec_block op cl s) as [[[a b] c]|] eqn:Hs; [|done].
  apply exec_block_sound in Hs.
  destruct (split_at_first_complete cl s (a ++ op ++ b) c) as [x Hx].
  - rewrite Hs. by rewrite <- !app_assoc.
  - congruence.
Qed.

Lemma exec_block_needs_open (op cl s : str) :
  In op open_tags -> find_any open_tags s = None -> exec_block op cl s = None.
Proof.
  intros Hin Hs. destruct (exec_block op cl s) as [[[a b] c]|] eqn:Hex; [|done].
  apply exec_block_starts in Hex.
  by rewrite (find_any_None open_tags s (length a) op Hs Hin) in Hex.
Qed.

Lemma patterns_open (p : Protocol) (pat : str * str) :
  In pat (patterns p) -> In pat.1 open_tags.
Proof. destruct p; simpl; intuition; subst; simpl; auto. Qed.

(** X8.  As long as no close tag of a dialect the protocol scans has
    arrived, a push reports nothing and the raw buffer is the buffer
    before with the chunk appended: an open block is only collected. *)
Theorem open_block_is_only_collected (b : StreamingToolCallBuffer) (chunk : str) :
  (forall pat, In pat (patterns (protocol b)) ->
     split_at_first pat.2 (Buffer.buffer b ++ chunk) = None) ->
  push b chunk
  = ({| Buffer.buffer := Buffer.buffer b ++ chunk; Buffer.format := Buffer.format b;
        protocol := protocol b |}, None).
Proof.
  intros Hclose. unfold push.
  rewrite scan_patterns_quiet; [done|].
  intros pat Hpat. by apply exec_block_needs_close, Hclose.
Qed.

Lemma push_tagless (b : StreamingToolCallBuffer) (chunk : str) :
  find_any open_tags (Buffer.buffer b ++ chunk) = None ->
  push b chunk
  = ({| Buffer.buffer := Buffer.buffer b ++ chunk; Buffer.format := Buffer.format b;
        protocol := protocol b |}, None).
Proof.
  intros Hopen. unfold push.
  rewrite scan_patterns_quiet; [done|].
  intros pat Hpat. apply exec_block_needs_open; [|done].
  by apply (patterns_open (protocol b)).
Qed.

Lemma tagless_prefix (s q : str) :
  find_any open_tags (s ++ q) = None -> find_any open_tags s = None.
Proof.
  intros Hsq. destruct (find_any open_tags s) as [i|] eqn:Hs; [|done].
  rewrite (find_any_app _ _ q _ open_tags_like Hs) in Hsq. done.
Qed.

(** X9.  Text without a complete open tag streams through: whatever the
    chunks, every push reports nothing and the visible content is all the
    text pushed so far. *)
Theorem plain_text_streams_through (chunks : list str) :
  forall (b : StreamingToolCallBuffer),
  find_any open_tags (Buffer.buffer b ++ concat chunks) = None ->
  forall k r visible,
    push_all b chunks !! k = Some (r, visible) ->
    r = None /\ visible = Buffer.buffer b ++ concat (take (S k) chunks).
Proof.
  induction chunks as [|c chunks IH]; intros b Hplain k r visible; [done|].
  simpl in Hplain. rewrite app_assoc in Hplain.
  pose proof (tagless_prefix _ _ Hplain) as Hc.
  cbn [push_all]. rewrite (push_tagless b c Hc).
  destruct k as [|k]; cbn [lookup list_lookup].
  - intros [= <- <-]. split; [done|].
    unfold getVisibleContent. cbn [Buffer.buffer]. rewrite Hc.
    simpl. by rewrite app_nil_r.
  - intros Hk. apply IH in Hk; [|done]. cbn [Buffer.buffer] in Hk.
    destruct Hk as [-> ->]. split; [done|]. simpl. by rewrite app_assoc.
Qed.

Lemma fold_scan_match (f : Format) (inners : list str) :
  forall acc : list value * bool,
  (fold_left (scan_match f) inners acc).1 = acc.1 ++ decoded f inners.
Proof.
  induction inners as [|i inners IH]; intros acc; simpl.
  - by rewrite app_nil_r.
  - rewrite IH. unfold scan_match, decoded. simpl.
    destruct (parseToolCallPayload i f); simpl; [|done].
    by rewrite <- app_assoc.
Qed.

Lemma scan_patterns_calls (f : Format) (pats : list (str * str)) (buf : str) :
  (scan_patterns f pats buf).1
  = flat_map (fun pat => decoded f (exec_all pat.1 pat.2 buf)) pats.
Proof.
  unfold scan_patterns.
  assert (Hgen : forall acc : list value * bool,
             (fold_left (fun acc pat =>
                fold_left (scan_match f) (exec_all pat.1 pat.2 buf) acc) pats acc).1
             = acc.1 ++ flat_map (fun pat => decoded f (exec_all pat.1 pat.2 buf)) pats).
  { induction pats as [|pat pats IH]; intros acc; simpl.
    - by rewrite app_nil_r.
    - rewrite IH, fold_scan_match. by rewrite <- app_assoc. }
  by rewrite Hgen.
Qed.

(** X10.  The calls a push returns are ordered by dialect, not by
    position: first the decodable blocks of the first pattern of the
    protocol's table, from left to right, then those of the second
    pattern, and so on; [null] is returned exactly when there is none. *)
Theorem calls_are_reported_by_dialect (b : StreamingToolCallBuffer) (chunk : str) :
  let found :=
    flat_map (fun pat =>
                decoded (Buffer.format b)
                  (exec_all pat.1 pat.2 (Buffer.buffer b ++ chunk)))
      (patterns (protocol b)) in
  (push b chunk).2 = match found with [] => None | _ :: _ => Some found end.
Proof.
  intros found. unfold push.
  pose proof (scan_patterns_calls (Buffer.format b) (patterns (protocol b))
                (Buffer.buffer b ++ chunk)) as Hcalls.
  pose proof (scan_patterns_found (Buffer.format b) (patterns (protocol b))
                (Buffer.buffer b ++ chunk)) as Hfound.
  fold found in Hcalls.
  destruct (scan_patterns (Buffer.format b) (patterns (protocol b))
              (Buffer.buffer b ++ chunk)) as [toolCalls flag].
  cbn [fst snd] in *. subst toolCalls.
  destruct flag; cbn [snd].
  - destruct found; [by destruct (proj1 Hfound eq_refl)|done].
  - destruct found as [|c cs]; [done|].
    assert (false = true) by (by apply Hfound). done.
Qed.

End BufferMore.

(** ** The streaming extractor *)

Section ExtractorFacts.
Context `{Runtime}.
Import StreamingExtractor.

(** X11.  Tokens whose text holds no complete open tag come out as they
    went in: the pushes throw nothing, detect no call, and their content
    segments, put together, are the tokens put together (nothing is lost
    and nothing is sent twice). *)
Theorem plain_tokens_come_out_once (now : str) (tokens : list str) :
  forall (x : StreamingExtractor),
  lastVisibleIndex x = length (Buffer.buffer (buffer x)) ->
  find_any open_tags (Buffer.buffer (buffer x) ++ concat tokens) = None ->
  exists x' segments,
    pushTokens now x tokens = (x', Ok segments)
    /\ content_of segments = concat tokens
    /\ calls_of segments = []
    /\ Buffer.buffer (buffer x') = Buffer.buffer (buffer x) ++ concat tokens
    /\ lastVisibleIndex x' = length (Buffer.buffer (buffer x')).
Proof.
  induction tokens as [|t tokens IH]; intros x Hidx Hplain.
  - exists x, []. simpl. by rewrite app_nil_r.
  - simpl in Hplain. rewrite app_assoc in Hplain.
    pose proof (tagless_prefix _ _ Hplain) as Ht.
    cbn [pushTokens]. unfold pushToken.
    rewrite (push_tagless (buffer x) t Ht).
    unfold getVisibleContent. cbn [Buffer.buffer]. rewrite Ht, Hidx.
    rewrite drop_app_length. cbn [default normalize_all bind].
    set (x1 := {| buffer := _; contentBuffer := _; lastVisibleIndex := _ |}).
    destruct (IH x1) as (x' & more & Hrun & Hcontent & Hcalls & Hbuf & Hidx').
    { subst x1. cbn. destruct t; [by rewrite app_nil_r|done]. }
    { by subst x1. }
    rewrite Hrun. cbn [bind].
    exists x', ((match t with [] => [] | _ :: _ => [content t] end ++ []) ++ more).
    split; [done|]. rewrite app_nil_r.
    split; [|split; [|split]].
    + unfold content_of in *. rewrite map_app, concat_app, Hcontent.
      destruct t; simpl; by rewrite ?app_nil_r.
    + unfold calls_of in *. rewrite omap_app, Hcalls. by destruct t.
    + rewrite Hbuf. subst x1. cbn. by rewrite app_assoc.
    + done.
Qed.

End ExtractorFacts.

(** ** The tool registry *)

Section RegistryFacts.
Context {W : Type}.
Implicit Types (svc : MCPService W) (tool : ToolDefinition W).
Import Registry.

(** X12.  [registerTool] succeeds exactly when the name is free, and then
    the tool is found under its name, every other lookup is as before and
    the size has grown by one; for a taken name it throws
    ['Tool '<name>' already registered.']. *)
Theorem register_then_lookup svc tool :
  (getTool svc (Chat.name tool) = None ->
   exists svc',
     registerTool tool svc = Ok svc'
     /\ getTool svc' (Chat.name tool) = Some tool
     /\ hasTool svc' (Chat.name tool) = true
     /\ (forall n, n <> Chat.name tool -> getTool svc' n = getTool svc n)
     /\ size svc' = S (size svc))
  /\ (forall old,
        getTool svc (Chat.name tool) = Some old ->
        registerTool tool svc
        = Throw (Error (lit "Error")
                   (lit "Tool '" ++ Chat.name tool ++ lit "' already registered."))).
Proof.
  unfold registerTool, getTool, hasTool, size. split.
  - intros Hfree. rewrite Hfree. eexists. split; [done|]. cbn [tools].
    split; [apply lookup_insert_eq|].
    split; [apply bool_decide_eq_true; rewrite lookup_insert_eq; eauto|].
    split; [intros n Hn; by apply lookup_insert_ne|].
    by apply map_size_insert_None.
  - by intros old ->.
Qed.

(** X13.  [removeTool] undoes [registerTool]: removing the tool just
    registered returns [true] and gives the registry back; removing a name
    that is not registered returns [false] and changes nothing. *)
Theorem remove_undoes_register svc tool :
  (forall svc',
     registerTool tool svc = Ok svc' ->
     removeTool (Chat.name tool) svc' = (true, svc))
  /\ (forall n, getTool svc n = None -> removeTool n svc = (false, svc)).
Proof.
  unfold registerTool, removeTool, getTool, hasTool. split.
  - intros svc'. destruct (tools svc !! Chat.name tool) eqn:Hfree; [done|].
    intros [= <-]. cbn [tools]. f_equal.
    + apply bool_decide_eq_true. rewrite lookup_insert_eq. eauto.
    + rewrite delete_insert_eq, delete_id by done. by destruct svc.
  - intros n Hn. f_equal.
    + apply bool_decide_eq_false. rewrite Hn. by intros [x Hx].
    + rewrite delete_id by done. by destruct svc.
Qed.

(** X14.  [executeTool] runs a handler at most once, and only for a
    registered tool whose schema accepts the arguments; the handler gets
    the arguments as the schema returns them.  When no handler runs the
    call fails and the world is as before. *)
Theorem handler_runs_only_after_validation svc (n : str) (args : value) (w : W) :
  let e := executeTool svc n args w in
  (exec_invoked e = []
   \/ exists tool parsedArgs,
        getTool svc n = Some tool /\ schema tool args = Ok parsedArgs
        /\ exec_invoked e = [(Chat.name tool, parsedArgs)]
        /\ exec_outcome e = settled (handler tool parsedArgs w)
        /\ exec_world e = after (handler tool parsedArgs w))
  /\ (exec_invoked e = [] ->
      exec_world e = w /\ is_ok (exec_outcome e) = false
      /\ (getTool svc n = None
          \/ exists tool, getTool svc n = Some tool /\ is_ok (schema tool args) = false)).
Proof.
  intros e. subst e. unfold executeTool.
  destruct (getTool svc n) as [tool|] eqn:Htool; cbn.
  - destruct (schema tool args) as [parsedArgs|err] eqn:Hschema; cbn.
    + split; [|done]. right. by exists tool, parsedArgs.
    + split; [by left|]. intros _. split; [done|]. split; [done|].
      right. exists tool. by rewrite Hschema.
  - split; [by left|]. intros _. auto.
Qed.

End RegistryFacts.

(** ** More on the session orchestrator *)

Section SessionMore.
Context `{Runtime} {W : Type}.
Implicit Types (cfg : ChatSession.Config W) (s : ChatSession.Session W).
Implicit Types (onResult : option (ChatSession.Callback W ChatSession.ToolCallResult)).
Implicit Types (toolCall : ChatSession.ToolCall).
Import ChatSession.










End SessionMore.

(** ** More on the legacy orchestrator *)

Section LegacyMore.
Context `{Runtime} {W : Type}.
Implicit Types (getTool : value -> option (ToolDefinition W)).
Implicit Types (st : Legacy.State W) (results : list Legacy.ToolCallResult).
#[local] Arguments Legacy.settle : simpl never.
#[local] Arguments Legacy.attempt : simpl never.

(** What a call that is not skipped does: the state in which it is
    attempted, and the one message and one result it leaves. *)
Lemma handle_call_attempted getTool (toolCall callId : value) st results :
  Legacy.callId_of toolCall = Ok callId ->
  truthy callId && set_has (Legacy.seenIds st) callId = false ->
  let st1 :=
    if truthy callId then Legacy.add_seen callId st else Legacy.warn toolCall st in
  Legacy.handle_call getTool toolCall (st, results)
  = Ok (Legacy.settle callId toolCall
          (Legacy.attempt getTool toolCall (Legacy.world st)) (st1, results)).
Proof.
  intros Hid Hfresh. unfold Legacy.handle_call. rewrite Hid. cbn [bind fst snd].
  destruct (truthy callId) eqn:Ht; cbn [andb] in *.
  - by rewrite Hfresh.
  - done.
Qed.

Lemma attempt_invokes getTool (toolCall : value) (w : W) :
  match Legacy.attempt getTool toolCall w with
  | Legacy.Invalid _ _ | Legacy.Caught _ None _ => True
  | Legacy.Succeeded tool parsedArgs _ _ _
  | Legacy.Caught _ (Some (tool, parsedArgs)) _ =>
      exists n,
        get_prop toolCall "name" = Ok n /\ truthy n = true
        /\ getTool n = Some tool
        /\ schema tool (Legacy.prop_or toolCall "arguments" (VObj [])) = Ok parsedArgs
  end.
Proof.
  unfold Legacy.attempt.
  destruct (get_prop toolCall "name") as [n|e] eqn:Hn; [|done].
  destruct (truthy n) eqn:Ht; cbn [negb]; [|done].
  destruct (getTool n) as [tool|] eqn:Htool; [|done].
  destruct (schema tool _) as [parsedArgs|[| |]] eqn:Hschema; try done.
  destruct (settled (handler tool parsedArgs w)) as [toolResult|e];
    [destruct (stringify_result toolResult)|]; exists n; done.
Qed.

(** X19.  In [handleToolCallFromModelOutput] one tool call runs a handler
    at most once, and only when the call names a registered tool whose
    schema accepts the arguments; in every other case no handler runs and
    the world stays as it is. *)
Theorem legacy_handler_runs_only_after_validation getTool
    (toolCall : value) st results st' results' :
  Legacy.handle_call getTool toolCall (st, results) = Ok (st', results') ->
  (Legacy.invocations st' = Legacy.invocations st /\ Legacy.world st' = Legacy.world st)
  \/ exists n tool parsedArgs,
       get_prop toolCall "name" = Ok n /\ truthy n = true
       /\ getTool n = Some tool
       /\ schema tool (Legacy.prop_or toolCall "arguments" (VObj [])) = Ok parsedArgs
       /\ Legacy.invocations st' = Legacy.invocations st ++ [(Chat.name tool, parsedArgs)].
Proof.
  unfold Legacy.handle_call.
  destruct (Legacy.callId_of toolCall) as [callId|e]; [|done]. cbn [bind fst snd].
  set (st0 := if truthy callId then st else Legacy.warn toolCall st).
  assert (H0 : Legacy.invocations st0 = Legacy.invocations st
               /\ Legacy.world st0 = Legacy.world st)
    by (subst st0; by destruct (truthy callId)).
  destruct (truthy callId && set_has (Legacy.seenIds st0) callId).
  { intros [= <- <-]. by left. }
  set (st1 := if truthy callId then Legacy.add_seen callId st0 else st0).
  assert (H1 : Legacy.invocations st1 = Legacy.invocations st
               /\ Legacy.world st1 = Legacy.world st)
    by (subst st1; by destruct (truthy callId)).
  destruct H1 as [Hinv Hw].
  pose proof (attempt_invokes getTool toolCall (Legacy.world st1)) as Hrun.
  destruct (Legacy.attempt getTool toolCall (Legacy.world st1))
    as [tool issues|tool parsedArgs toolResult text w|e [[tool parsedArgs]|] w];
    cbn [Legacy.settle]; intros [= <- <-];
    cbn [Legacy.addMessage Legacy.invoked Legacy.invocations Legacy.world].
  - by left.
  - right. destruct Hrun as (n & ? & ? & ? & ?). exists n, tool, parsedArgs.
    by rewrite Hinv.
  - right. destruct Hrun as (n & ? & ? & ? & ?). exists n, tool, parsedArgs.
    by rewrite Hinv.
  - by left.
Qed.

(** X20.  A call without a name never reaches a handler: it is answered
    by the assistant message ['Function/tool call error: Error: No
    tool/function name specified.'] and a result named ['unknown'] that
    carries this error. *)
Theorem nameless_call_fails getTool (toolCall callId n : value) st results :
  Legacy.callId_of toolCall = Ok callId ->
  truthy callId && set_has (Legacy.seenIds st) callId = false ->
  get_prop toolCall "name" = Ok n -> truthy n = false ->
  let errMsg := lit "Function/tool call error: Error: No tool/function name specified." in
  exists st',
    Legacy.handle_call getTool toolCall (st, results)
    = Ok (st', results
               ++ [{| Legacy.id := callId; Legacy.name := VStr (lit "unknown");
                      Legacy.args := Legacy.prop_or toolCall "arguments" (VObj []);
                      Legacy.result := None; Legacy.error := Some errMsg;
                      Legacy.raw := toolCall |}])
    /\ Legacy.history st' = Legacy.history st ++ [Message assistant (VStr errMsg)]
    /\ Legacy.invocations st' = Legacy.invocations st
    /\ Legacy.world st' = Legacy.world st.
Proof.
  intros Hid Hfresh Hn Hfalsy errMsg.
  rewrite (handle_call_attempted getTool toolCall callId st results Hid Hfresh).
  assert (Hattempt : Legacy.attempt getTool toolCall (Legacy.world st)
                     = Legacy.Caught (new_Error "No tool/function name specified.")
                         None (Legacy.world st)).
  { unfold Legacy.attempt. by rewrite Hn, Hfalsy. }
  assert (Hname : Legacy.prop_or toolCall "name" (VStr (lit "unknown"))
                  = VStr (lit "unknown")).
  { unfold Legacy.prop_or, or_else. by rewrite Hn, Hfalsy. }
  rewrite Hattempt. unfold Legacy.settle. rewrite Hname.
  eexists. split; [reflexivity|]. by destruct (truthy callId).
Qed.

Lemma settle_grows (callId toolCall : value) (a : Legacy.Attempt W) st results :
  exists m r,
    (Legacy.settle callId toolCall a (st, results)).2 = results ++ [r]
    /\ Legacy.history (Legacy.settle callId toolCall a (st, results)).1
       = Legacy.history st ++ [m].
Proof.
  destruct a as [tool issues|tool parsedArgs toolResult text w|e [[tool parsedArgs]|] w];
    cbn [Legacy.settle]; eexists _, _; (split; [reflexivity|]); done.
Qed.

Lemma handle_call_in_step getTool (toolCall : value) st results st' results' :
  Legacy.handle_call getTool toolCall (st, results) = Ok (st', results') ->
  length (Legacy.history st') + length results
  = length (Legacy.history st) + length results'.
Proof.
  unfold Legacy.handle_call.
  destruct (Legacy.callId_of toolCall) as [callId|e]; [|done]. cbn [bind fst snd].
  set (st0 := if truthy callId then st else Legacy.warn toolCall st).
  assert (H0 : Legacy.history st0 = Legacy.history st)
    by (subst st0; by destruct (truthy callId)).
  destruct (truthy callId && set_has (Legacy.seenIds st0) callId).
  { intros [= <- <-]. by rewrite H0. }
  set (st1 := if truthy callId then Legacy.add_seen callId st0 else st0).
  assert (H1 : Legacy.history st1 = Legacy.history st)
    by (subst st1; rewrite <- H0; by destruct (truthy callId)).
  destruct (settle_grows callId toolCall
              (Legacy.attempt getTool toolCall (Legacy.world st1)) st1 results)
    as (m & r & Hr & Hh).
  intros [= Heq].
  assert (Hst : st' = (Legacy.settle callId toolCall
                         (Legacy.attempt getTool toolCall (Legacy.world st1))
                         (st1, results)).1) by (by rewrite Heq).
  assert (Hres : results' = (Legacy.settle callId toolCall
                               (Legacy.attempt getTool toolCall (Legacy.world st1))
                               (st1, results)).2) by (by rewrite Heq).
  rewrite Hst, Hres, Hr, Hh, H1, !length_app. simpl. lia.
Qed.

(** X21.  [handleToolCallFromModelOutput] keeps messages and results in
    step: over any list of decoded calls it appends as many messages to
    the history as it adds results, one of each for every call that is not
    skipped as a duplicate. *)
Theorem one_message_per_result getTool (toolCalls : list value) :
  forall st results st' results',
  Legacy.handle_calls getTool toolCalls (st, results) = Ok (st', results') ->
  length (Legacy.history st') + length results
  = length (Legacy.history st) + length results'.
Proof.
  induction toolCalls as [|c cs IH]; intros st results st' results'; simpl.
  - by intros [= <- <-].
  - destruct (Legacy.handle_call getTool c (st, results)) as [[st1 results1]|e] eqn:Hc;
      [|done].
    cbn [bind]. intros Hcs.
    pose proof (handle_call_in_step _ _ _ _ _ _ Hc).
    pose proof (IH _ _ _ _ Hcs). lia.
Qed.

(** X22.  A decoded call that is [null] or [undefined] makes the whole
    run throw: reading its id fails outside every [try], whatever calls
    come before or after it. *)
Theorem null_call_throws getTool (before : list value) (toolCall : value)
    (rest : list value) (acc : Legacy.State W * list Legacy.ToolCallResult) :
  toolCall = VNull \/ toolCall = VUndefined ->
  is_ok (Legacy.handle_calls getTool (before ++ toolCall :: rest) acc) = false.
Proof.
  intros Hnull. rewrite handle_calls_app.
  destruct (Legacy.handle_calls getTool before acc) as [acc1|e]; [|done].
  cbn [bind Legacy.handle_calls]. by destruct Hnull as [-> | ->].
Qed.

(** X23.  A call without an id is never taken for a duplicate: each time
    it appears it is attempted, a warning is logged for it, and the set of
    processed ids stays as it is. *)
Theorem call_without_id_is_always_attempted getTool (toolCall callId : value)
    st results :
  Legacy.callId_of toolCall = Ok callId -> truthy callId = false ->
  exists st' r,
    Legacy.handle_call getTool toolCall (st, results) = Ok (st', results ++ [r])
    /\ Legacy.raw r = toolCall
    /\ Legacy.warnings st' = Legacy.warnings st ++ [toolCall]
    /\ Legacy.seenIds st' = Legacy.seenIds st.
Proof.
  intros Hid Hfalsy.
  rewrite (handle_call_attempted getTool toolCall callId st results Hid)
    by (by rewrite Hfalsy).
  rewrite Hfalsy.
  destruct (Legacy.attempt getTool toolCall (Legacy.world st))
    as [tool issues|tool parsedArgs toolResult text w|e [[tool parsedArgs]|] w];
    cbn [Legacy.settle]; eexists _, _; (split; [reflexivity|]); done.
Qed.

End LegacyMore.

(** ** The legacy session *)

Section LegacySessionFacts.
Context `{Runtime} {W : Type}.
Implicit Types (getTool : value -> option (ToolDefinition W)).
Implicit Types (s : Legacy.Session W).
Import LegacyStream.

(** In the legacy session every attempted call leaves one message of role
    ['tool'] and one result, whether it succeeds or fails. *)
Lemma chat_tool_call_message getTool (callId toolCall : value) s :
  exists m r,
    Legacy.s_history (Legacy.chat_tool_call getTool callId toolCall s)
    = Legacy.s_history s ++ [m]
    /\ is_tool_message m = true
    /\ Legacy.lastToolCallResults (Legacy.chat_tool_call getTool callId toolCall s)
       = Legacy.lastToolCallResults s ++ [r]
    /\ Legacy.id r = callId /\ Legacy.raw r = toolCall.
Proof.
  unfold Legacy.chat_tool_call.
  destruct (Legacy.attempt getTool toolCall (Legacy.s_world s))
    as [tool issues|tool parsedArgs toolResult text w|e [[tool parsedArgs]|] w];
    eexists _, _; cbn; done.
Qed.

(** X24.  [processParsedToolCall] skips a call whose id has been
    processed and leaves the session as it is; every other call has its id
    recorded and leaves exactly one message, of role ['tool'] also when the
    call failed, and one result. *)
Theorem streamed_call_is_skipped_or_answered getTool (toolCall callId : value)
    (processedIds : list value) s :
  Legacy.callId_of toolCall = Ok callId ->
  (truthy callId && set_has processedIds callId = true ->
   processParsedToolCall getTool toolCall processedIds s = Ok (processedIds, s))
  /\ (truthy callId && set_has processedIds callId = false ->
      exists s' m r,
        processParsedToolCall getTool toolCall processedIds s
        = Ok (if truthy callId then set_add processedIds callId else processedIds, s')
        /\ Legacy.s_history s' = Legacy.s_history s ++ [m]
        /\ is_tool_message m = true
        /\ Legacy.lastToolCallResults s' = Legacy.lastToolCallResults s ++ [r]
        /\ Legacy.raw r = toolCall).
Proof.
  intros Hid. unfold processParsedToolCall. rewrite Hid. cbn [bind].
  split; intros ->; [done|].
  destruct (chat_tool_call_message getTool callId toolCall s)
    as (m & r & Hh & Hm & Hr & _ & Hraw).
  by eexists _, m, r.
Qed.

Lemma assistant_text_app (xs ys : list ChatMessage) :
  assistant_text (xs ++ ys) = assistant_text xs ++ assistant_text ys.
Proof. unfold assistant_text. by rewrite map_app, concat_app. Qed.

Lemma chat_loop_text (combine : bool) getTool (segments : list Legacy.Segment) :
  forall (visibleText contentBuffer : str) s visibleText' contentBuffer' s',
  Legacy.chat_loop combine getTool segments visibleText contentBuffer s
  = Ok (visibleText', contentBuffer', s') ->
  exists msgs,
    Legacy.s_history s' = Legacy.s_history s ++ msgs
    /\ visibleText' = visibleText ++ assistant_text msgs.
Proof.
  induction segments as [|seg segments IH];
    intros visibleText contentBuffer s visibleText' contentBuffer' s'; simpl.
  - intros [= <- <- <-]. exists []. by rewrite !app_nil_r.
  - destruct seg as [text|toolCall].
    + destruct combine.
      * apply IH.
      * destruct (Legacy.non_blank text).
        -- intros Hrest. destruct (IH _ _ _ _ _ _ Hrest) as (msgs & Hh & Hv).
           exists (Message assistant (VStr text) :: msgs). split.
           ++ rewrite Hh. cbn. by rewrite <- app_assoc.
           ++ rewrite Hv. unfold assistant_text. simpl. by rewrite <- app_assoc.
        -- apply IH.
    + destruct (Legacy.callId_of toolCall) as [callId|e]; [|done]. cbn [bind].
      intros Hrest. destruct (IH _ _ _ _ _ _ Hrest) as (msgs & Hh & Hv).
      destruct (chat_tool_call_message getTool callId toolCall s)
        as (m & r & Hm & Htool & _).
      exists (m :: msgs). split.
      * rewrite Hh, Hm. by rewrite <- app_assoc.
      * rewrite Hv. unfold assistant_text. simpl.
        destruct m as [role c|n c a]; [done|]. done.
Qed.

(** X25.  What [LegacyChatSession.chat] returns is what it recorded: the
    returned text is the text of the assistant messages the call appended
    to the history, in their order (tool calls append messages of role
    ['tool'] only). *)
Theorem legacy_chat_returns_what_it_recorded (combine : bool) getTool
    (segments : list Legacy.Segment) s (text : str) s' :
  Legacy.chat_segments combine getTool segments s = Ok (text, s') ->
  exists msgs,
    Legacy.s_history s' = Legacy.s_history s ++ msgs
    /\ assistant_text msgs = text.
Proof.
  unfold Legacy.chat_segments.
  destruct (Legacy.chat_loop combine getTool segments [] [] s)
    as [[[visibleText contentBuffer] s1]|e] eqn:Hloop; [|done].
  cbn [bind].
  destruct (chat_loop_text _ _ _ _ _ _ _ _ _ Hloop) as (msgs & Hh & Hv).
  simpl in Hv. subst visibleText.
  destruct (combine && Legacy.non_blank contentBuffer).
  - intros [= <- <-]. exists (msgs ++ [Message assistant (VStr contentBuffer)]).
    split.
    + cbn. by rewrite Hh, <- app_assoc.
    + rewrite assistant_text_app. unfold assistant_text at 2. simpl.
      by rewrite app_nil_r.
  - intros [= <- <-]. by exists msgs.
Qed.

(** X26.  [extractSegments] always comes to an end, after at most two
    rounds of its loop, and it does not keep the order of the text: when
    the text holds a call that decodes, the segments are all the calls
    first and then, as one content segment, the visible part of what is
    left in the buffer; otherwise the whole text is one content
    segment. *)
Theorem calls_come_before_text (text : str) (p : Protocol) (f : Format) :
  let expected :=
    match text with
    | [] => []
    | _ :: _ =>
        match push (new_buffer p (Some f)) text with
        | (b', Some (c :: cs)) =>
            map Legacy.tool_call_segment (c :: cs)
              ++ match getVisibleContent b' with
                 | [] => []
                 | v :: vs => [Legacy.content_segment (v :: vs)]
                 end
        | (_, _) => [Legacy.content_segment text]
        end
    end in
  extractSegments text p f = Some expected
  /\ forall fuel, 2 <= fuel ->
       extract_loop fuel (new_buffer p (Some f)) text [] = Some expected.
Proof.
  intros expected.
  assert (Hloop : forall fuel, 2 <= fuel ->
             extract_loop fuel (new_buffer p (Some f)) text [] = Some expected).
  { intros [|[|fuel]] Hfuel; try lia. subst expected.
    destruct text as [|t text]; [done|].
    cbn [extract_loop].
    change (getVisibleContent (new_buffer p (Some f))) with (@nil ascii).
    cbv iota.
    destruct (push (new_buffer p (Some f)) (t :: text)) as [b' [[|c cs]|]]; try done.
    destruct (getVisibleContent b') as [|v vs] eqn:Hv.
    - simpl. by rewrite app_nil_r.
    - cbn [extract_loop]. rewrite drop_all. by destruct fuel. }
  split; [|done]. unfold extractSegments. apply Hloop. lia.
Qed.

End LegacySessionFacts.

(** ** Closed instances of the further properties *)

Lemma payload_white_space_is_ignored_witness :
  @parseToolCallPayload Reference.runtime
    (lit "  " ++ qlit "{'name':'x'}" ++ [newline]) F_json
  = @parseToolCallPayload Reference.runtime (qlit "{'name':'x'}") F_json.
Proof.
  apply (@payload_white_space_is_ignored Reference.runtime); by vm_compute.
Defined.

Lemma fenced_payload_is_unwrapped_witness :
  stripMarkdownCodeBlock
    (lit "```" ++ lit "json" ++ newline :: qlit "{'a':1}" ++ newline :: lit "```")
  = trim (qlit "{'a':1}").
Proof. apply fenced_payload_is_unwrapped. by vm_compute. Defined.

Lemma stripped_text_is_trimmed_witness :
  stripMarkdownCodeBlock (lit "  hello ") = trim (lit "  hello ").
Proof. apply (proj2 (stripped_text_is_trimmed (lit "  hello "))). by vm_compute. Defined.

Lemma json_inside_prose_is_parsed_witness :
  @tryParseJson Reference.runtime
    (lit "Sure: " ++ lit "{" ++ qlit "'name':'x'" ++ lit "}" ++ lit " done")
  = @JSON_parse Reference.runtime (lit "{" ++ qlit "'name':'x'" ++ lit "}").
Proof.
  apply (@json_inside_prose_is_parsed Reference.runtime); by vm_compute.
Defined.

Lemma json_without_brace_is_malformed_witness :
  @tryParseJson Reference.runtime (lit "no json here")
  = Throw (new_Error "Malformed JSON in tool/function call payload.").
Proof.
  apply (proj2 (@json_without_brace_is_malformed Reference.runtime (lit "no json here")));
    by vm_compute.
Defined.

Lemma xml_needs_a_name_element_witness :
  is_ok (@parseToolCallPayload Reference.runtime Example2.weather_xml F_auto) = true.
Proof.
  apply (proj2 (proj2 (@xml_needs_a_name_element Reference.runtime
                         (stripMarkdownCodeBlock (trim Example2.weather_xml))))
           Example2.weather_xml eq_refl).
  by vm_compute.
Defined.

Lemma xml_reads_the_first_name_witness :
  @parseXml Reference.runtime Example2.weather_xml
  = Ok (VObj [(lit "name", VStr (lit "get_weather")); (lit "arguments", VObj [])]).
Proof.
  etransitivity.
  - apply (@xml_reads_the_first_name Reference.runtime []
             (lit " get_weather ") (lit "<arguments>{}</arguments>"));
      by vm_compute.
  - by vm_compute.
Defined.

Lemma open_block_is_only_collected_witness :
  @push Reference.runtime tool_json (qlit "<tool_call>{'name'")
  = ({| Buffer.buffer := [] ++ qlit "<tool_call>{'name'"; Buffer.format := F_json;
        protocol := P_tool |}, None).
Proof.
  apply (@open_block_is_only_collected Reference.runtime tool_json).
  intros pat [<- | [<- | []]]; by vm_compute.
Defined.

Lemma plain_text_streams_through_witness :
  exists r visible,
    @push_all Reference.runtime tool_json Example2.plain_chunks !! 1
    = Some (r, visible)
    /\ r = None /\ visible = [] ++ concat (take 2 Example2.plain_chunks).
Proof.
  destruct (@push_all Reference.runtime tool_json Example2.plain_chunks !! 1)
    as [[r visible]|] eqn:Hk; [|by vm_compute in Hk].
  exists r, visible. split; [done|].
  apply (@plain_text_streams_through Reference.runtime Example2.plain_chunks tool_json
           ltac:(by vm_compute) 1 r visible Hk).
Defined.

Lemma plain_tokens_come_out_once_witness :
  exists x' segments,
    @StreamingExtractor.pushTokens Reference.runtime (lit "0")
      (StreamingExtractor.new_extractor None None) Example2.plain_chunks
    = (x', Ok segments)
    /\ StreamingExtractor.content_of segments = concat Example2.plain_chunks
    /\ StreamingExtractor.calls_of segments = [].
Proof.
  destruct (@plain_tokens_come_out_once Reference.runtime (lit "0")
              Example2.plain_chunks (StreamingExtractor.new_extractor None None)
              eq_refl ltac:(by vm_compute))
    as (x' & segments & Hrun & Hcontent & Hcalls & _).
  by exists x', segments.
Defined.

Lemma register_then_lookup_witness :
  exists svc',
    registerTool strict Example.service = Ok svc'
    /\ getTool svc' (lit "strict") = Some strict
    /\ Registry.size svc' = S (Registry.size Example.service).
Proof.
  destruct (proj1 (register_then_lookup Example.service strict) ltac:(by vm_compute))
    as (svc' & Hreg & Hget & _ & _ & Hsize).
  by exists svc'.
Defined.

Lemma remove_undoes_register_witness :
  exists svc',
    registerTool strict Example.service = Ok svc'
    /\ Registry.removeTool (lit "strict") svc' = (true, Example.service).
Proof.
  destruct (registerTool strict Example.service) as [svc'|e] eqn:Hreg;
    [|by vm_compute in Hreg].
  exists svc'. split; [done|].
  by apply (proj1 (remove_undoes_register Example.service strict)).
Defined.

Lemma handler_runs_only_after_validation_witness :
  let e := executeTool Example2.service (lit "strict") (VObj []) 7 in
  exec_world e = 7 /\ is_ok (exec_outcome e) = false
  /\ (getTool Example2.service (lit "strict") = None
      \/ exists tool,
           getTool Example2.service (lit "strict") = Some tool
           /\ is_ok (schema tool (VObj [])) = false).
Proof.
  apply (proj2 (handler_runs_only_after_validation Example2.service
                  (lit "strict") (VObj []) 7)).
  by vm_compute.
Defined.




Lemma legacy_handler_runs_only_after_validation_witness :
  exists st' results',
    @Legacy.handle_call Reference.runtime nat Example.getTool
      (Example.call "a" "echo") (Example.fresh, []) = Ok (st', results')
    /\ ((Legacy.invocations st' = [] /\ Legacy.world st' = 0)
        \/ exists n tool parsedArgs,
             get_prop (Example.call "a" "echo") "name" = Ok n /\ truthy n = true
             /\ Example.getTool n = Some tool
             /\ schema tool
                  (Legacy.prop_or (Example.call "a" "echo") "arguments" (VObj []))
                = Ok parsedArgs
             /\ Legacy.invocations st' = [] ++ [(Chat.name tool, parsedArgs)]).
Proof.
  destruct (@Legacy.handle_call Reference.runtime nat Example.getTool
              (Example.call "a" "echo") (Example.fresh, []))
    as [[st' results']|e] eqn:Hcall; [|by vm_compute in Hcall].
  exists st', results'. split; [done|].
  exact (@legacy_handler_runs_only_after_validation Reference.runtime nat
           Example.getTool _ _ _ _ _ Hcall).
Defined.

Lemma nameless_call_fails_witness :
  exists st' r,
    @Legacy.handle_call Reference.runtime nat Example.getTool Example2.nameless
      (Example.fresh, []) = Ok (st', [] ++ [r])
    /\ Legacy.name r = VStr (lit "unknown")
    /\ Legacy.invocations st' = [].
Proof.
  destruct (@nameless_call_fails Reference.runtime nat Example.getTool
              Example2.nameless (VStr (lit "a")) VUndefined Example.fresh []
              eq_refl eq_refl eq_refl eq_refl)
    as (st' & Hcall & _ & Hinv & _).
  eexists st', _. split; [exact Hcall|]. by split.
Defined.

Lemma one_message_per_result_witness :
  exists st' results',
    @Legacy.handle_calls Reference.runtime nat Example.getTool
      [Example.call "a" "echo"; Example.call "a" "echo"; Example.call "b" "broken"]
      (Example.fresh, []) = Ok (st', results')
    /\ length (Legacy.history st') + 0 = 0 + length results'.
Proof.
  destruct (@Legacy.handle_calls Reference.runtime nat Example.getTool
              [Example.call "a" "echo"; Example.call "a" "echo";
               Example.call "b" "broken"] (Example.fresh, []))
    as [[st' results']|e] eqn:Hcalls; [|by vm_compute in Hcalls].
  exists st', results'. split; [done|].
  exact (@one_message_per_result Reference.runtime nat Example.getTool _ _ _ _ _ Hcalls).
Defined.

Lemma null_call_throws_witness :
  is_ok (@Legacy.handle_calls Reference.runtime nat Example.getTool
           ([Example.call "a" "echo"] ++ VNull :: [Example.call "b" "echo"])
           (Example.fresh, [])) = false.
Proof. apply null_call_throws. by left. Defined.

Lemma call_without_id_is_always_attempted_witness :
  exists st' r,
    @Legacy.handle_call Reference.runtime nat Example.getTool Example2.anonymous
      (Example.fresh, []) = Ok (st', [] ++ [r])
    /\ Legacy.raw r = Example2.anonymous
    /\ Legacy.warnings st' = [] ++ [Example2.anonymous]
    /\ Legacy.seenIds st' = [].
Proof.
  apply (@call_without_id_is_always_attempted Reference.runtime nat Example.getTool
           Example2.anonymous VUndefined Example.fresh []); by vm_compute.
Defined.

Lemma streamed_call_is_skipped_or_answered_witness :
  @LegacyStream.processParsedToolCall Reference.runtime nat Example.getTool
    (Example.call "a" "echo") [VStr (lit "a")] Example.fresh_legacy_session
  = Ok ([VStr (lit "a")], Example.fresh_legacy_session).
Proof.
  apply (proj1 (@streamed_call_is_skipped_or_answered Reference.runtime nat
                  Example.getTool (Example.call "a" "echo") (VStr (lit "a"))
                  [VStr (lit "a")] Example.fresh_legacy_session eq_refl)).
  by vm_compute.
Defined.

Lemma legacy_chat_returns_what_it_recorded_witness :
  exists text s' msgs,
    @Legacy.chat_segments Reference.runtime nat false Example.getTool
      [Legacy.content_segment (lit "Let me check. ");
       Legacy.tool_call_segment (Example.call "a" "echo");
       Legacy.content_segment (lit "Done.")]
      Example.fresh_legacy_session = Ok (text, s')
    /\ Legacy.s_history s' = [] ++ msgs
    /\ LegacyStream.assistant_text msgs = text.
Proof.
  destruct (@Legacy.chat_segments Reference.runtime nat false Example.getTool
              [Legacy.content_segment (lit "Let me check. ");
               Legacy.tool_call_segment (Example.call "a" "echo");
               Legacy.content_segment (lit "Done.")]
              Example.fresh_legacy_session)
    as [[text s']|e] eqn:Hchat; [|by vm_compute in Hchat].
  destruct (@legacy_chat_returns_what_it_recorded Reference.runtime nat false
              Example.getTool _ _ _ _ Hchat) as (msgs & Hh & Ht).
  by exists text, s', msgs.
Defined.

Lemma calls_come_before_text_witness :
  @LegacyStream.extract_loop Reference.runtime 5 tool_json
    (lit "Let me check. " ++ good_block) []
  = Some [Legacy.tool_call_segment (VObj [(lit "name", VStr (lit "x"))]);
          Legacy.content_segment (lit "Let me check. ")].
Proof.
  etransitivity.
  - apply (proj2 (@calls_come_before_text Reference.runtime
                    (lit "Let me check. " ++ good_block) P_tool F_json) 5).
    lia.
  - by vm_compute.
Defined.
